(** * Night sky visualizer: a model of [night_sky.py]

    The program reads a star catalogue from a CSV file ([read_stars]),
    draws it with matplotlib ([plot_sky]) and is driven from the command
    line ([main]).  The development below embeds these three functions:

    - Python floats are IEEE binary64 values ([spec_float] with precision
      53 and maximal exponent 1024), so that [max(1, 10 - mag * 2) ** 2]
      is computed as CPython computes it, [OverflowError] included;
    - exceptions are values of [exn]; a computation returns a [result];
    - the file system, pyplot's registry of open figures and the standard
      streams form a [World] that is threaded through the monad [M];
    - the collaborators of the program ([csv], [matplotlib], [argparse])
      are modelled at their interface: a CSV file is the sequence of
      records [csv.reader] yields, a figure is the record of what was drawn
      on it, the argument parser follows the option forms of argparse. *)

From Stdlib Require Import ZArith Lia Bool Ascii String.
From Stdlib Require Import Floats.SpecFloat.
From stdpp Require Import gmap strings list fin_maps sorting.

Local Open Scope string_scope.
Local Open Scope list_scope.

(** ** Exceptions and results *)

Inductive exn : Type :=
| FileNotFoundError (path : string)
| PermissionError (path : string)
| KeyError (key : string)
| ValueError (msg : string)
| TypeError (msg : string)
| OverflowError (msg : string)
| SystemExit (code : Z).

Inductive result (A : Type) : Type :=
| Ok (a : A)
| Raise (e : exn).
Arguments Ok {A} a.
Arguments Raise {A} e.

#[global] Instance result_ret : MRet result := λ A a, Ok a.
#[global] Instance result_bind : MBind result := λ A B k r,
  match r with
  | Ok a => k a
  | Raise e => Raise e
  end.
#[global] Instance result_fmap : FMap result := λ A B f r,
  match r with
  | Ok a => Ok (f a)
  | Raise e => Raise e
  end.

(** [[f(x) for x in l]]: the first exception aborts the comprehension. *)
Fixpoint list_comprehension {A B} (f : A → result B) (l : list A) : result (list B) :=
  match l with
  | [] => Ok []
  | x :: l' =>
      y ← f x;
      ys ← list_comprehension f l';
      Ok (y :: ys)
  end.

(** ** Python numbers *)

Module Float.

Definition prec : Z := 53.
Definition emax : Z := 1024.

Abbreviation float := spec_float.

(** int to float conversion, as in [10 - x] or [x * 2]. *)
Definition of_int (z : Z) : float := binary_normalize prec emax z 0 false.

Definition mul : float → float → float := SFmul prec emax.
Definition sub : float → float → float := SFsub prec emax.

(** Comparison of a float with an int is exact in CPython
    ([float_richcompare]); a NaN compares with nothing. *)
Definition compare_int (x : float) (n : Z) : option comparison :=
  match x with
  | S754_nan => None
  | S754_infinity s => Some (if s then Lt else Gt)
  | S754_zero _ => Some (0 ?= n)%Z
  | S754_finite s m e =>
      let v := cond_Zopp s (Zpos m) in
      Some (if (0 <=? e)%Z then (v * 2 ^ e ?= n)%Z else (v ?= n * 2 ^ (- e))%Z)
  end.

Definition gt_int (x : float) (n : Z) : bool :=
  match compare_int x n with
  | Some Gt => true
  | _ => false
  end.

Definition ge_int (x : float) (n : Z) : bool :=
  match compare_int x n with
  | Some (Gt | Eq) => true
  | _ => false
  end.

Definition is_finite (x : float) : bool :=
  match x with
  | S754_finite _ _ _ | S754_zero _ => true
  | _ => false
  end.

(** [x ** 2] on floats ([float_pow] with exponent 2): NaN, infinities and
    zeros are answered directly; otherwise the square is computed and a
    result out of range raises [OverflowError]. *)
Definition pow2 (x : float) : result float :=
  match x with
  | S754_nan => Ok S754_nan
  | S754_infinity _ => Ok (S754_infinity false)
  | S754_zero _ => Ok (S754_zero false)
  | S754_finite _ _ _ =>
      match mul (SFabs x) (SFabs x) with
      | S754_infinity _ => Raise (OverflowError "(34, 'Numerical result out of range')")
      | r => Ok r
      end
  end.

End Float.

Abbreviation float := spec_float.

(** A Python number: [max(1, x)] answers the int [1] or the float [x]. *)
Inductive num : Type :=
| PInt (z : Z)
| PFloat (x : float).

(** [max(1, x)]: [x] replaces [1] only when [x > 1] holds. *)
Definition max_1 (x : float) : num :=
  if Float.gt_int x 1 then PFloat x else PInt 1.

(** [n ** 2]. *)
Definition num_pow2 (n : num) : result num :=
  match n with
  | PInt z => Ok (PInt (z * z))
  | PFloat x => PFloat <$> Float.pow2 x
  end.

(** [n >= 1]. *)
Definition num_ge_1 (n : num) : bool :=
  match n with
  | PInt z => (1 <=? z)%Z
  | PFloat x => Float.ge_int x 1
  end.

(** [10 - mag * 2]. *)
Definition brightness (mag : float) : float :=
  Float.sub (Float.of_int 10) (Float.mul mag (Float.of_int 2)).

(** [max(1, 10 - s.mag * 2) ** 2], line 58 of [plot_sky]. *)
Definition marker_size (mag : float) : result num :=
  num_pow2 (max_1 (brightness mag)).

(** Some doubles, computed from their decimal or integer writing. *)
Definition f_minus_1e200 : float :=
  Eval vm_compute in SFopp (Float.of_int (10 ^ 200)).
Definition f_1e300 : float := Eval vm_compute in Float.of_int (10 ^ 300).
Definition f_max : float := Eval vm_compute in SFmax_float Float.prec Float.emax.

(** [ge1 m e]: the positive number [m * 2 ^ e] is at least one. *)
Definition ge1 (m e : Z) : Prop := (0 < m ∧ (e ≤ 0 → 2 ^ (- e) ≤ m))%Z.

(** ** Python values read from a CSV file *)

(** What [csv.DictReader] stores in a row: a field of the file (a string),
    [None] for a column the row has no value for, and the list of the
    values beyond the last column. *)
Inductive pyval : Type :=
| PNone
| PStr (s : string)
| PList (l : list string).

(** [repr] of a string (quotes only; escapes do not occur in the messages
    considered here). *)
Definition repr (s : string) : string := "'" +:+ s +:+ "'".

(** [d[key]] on a dictionary with string keys. *)
Definition getitem {V} (d : gmap string V) (key : string) : result V :=
  match d !! key with
  | Some v => Ok v
  | None => Raise (KeyError key)
  end.

(** A row of [csv.DictReader]: its keys are the field names and, for the
    values beyond the last column, the key [None]. *)
Abbreviation row_dict := (gmap (option string) pyval).

(** [row[key]] for a string [key]. *)
Definition row_getitem (row : row_dict) (key : string) : result pyval :=
  match row !! Some key with
  | Some v => Ok v
  | None => Raise (KeyError key)
  end.

(** [dict(zip(fieldnames, row))]: a later duplicate of a key wins. *)
Definition dict_zip (fieldnames row : list string) : row_dict :=
  foldl (λ d kv, <[Some kv.1 := PStr kv.2]> d) ∅ (zip fieldnames row).

(** [for key in fieldnames[lr:]: d[key] = restval], with [restval = None]. *)
Definition fill_restval (d : row_dict) (keys : list string) : row_dict :=
  foldl (λ d key, <[Some key := PNone]> d) d keys.

(** The dictionary [DictReader.__next__] builds from one record. *)
Definition make_row (fieldnames row : list string) : row_dict :=
  let d := dict_zip fieldnames row in
  let lf := length fieldnames in
  let lr := length row in
  if (lf <? lr)%nat then <[None := PList (drop lf row)]> d
  else if (lr <? lf)%nat then fill_restval d (drop lr fieldnames)
  else d.

(** Iterating [csv.DictReader(handle)]: the first record gives the field
    names, the records that are empty lists (blank lines) are skipped. *)
Definition DictReader (records : list (list string)) : list row_dict :=
  match records with
  | [] => []
  | fieldnames :: rows => make_row fieldnames <$> filter (λ r, r ≠ []) rows
  end.

(** ** Stars *)

Record Star : Type := mkStar {
  name : pyval;
  ra_deg : float;
  dec_deg : float;
  mag : float
}.

(** ** Themes *)

Definition THEMES : gmap string (gmap string string) :=
  {[ "dark" := {[ "bg" := "black"; "fg" := "white" ]};
     "light" := {[ "bg" := "#f2f2f2"; "fg" := "#111111" ]} ]}.

(** [THEMES.get(theme, THEMES["dark"])], line 50 of [plot_sky]. *)
Definition theme_style (theme : string) : result (gmap string string) :=
  dark ← getitem THEMES "dark";
  Ok (default dark (THEMES !! theme)).

(** ** What is drawn *)

Record Scatter : Type := mkScatter {
  scatter_x : list float;
  scatter_y : list float;
  scatter_s : list num;
  scatter_c : string;
  scatter_alpha : float
}.

Record Text : Type := mkText {
  text_x : float;
  text_y : float;
  text_s : pyval;
  text_color : string;
  text_fontsize : Z
}.

Record Grid : Type := mkGrid {
  grid_color : string;
  grid_alpha : float
}.

(** The axes of the chart, as the calls on [ax] leave them. *)
Record Axes : Type := mkAxes {
  ax_facecolor : option string;
  ax_xaxis_inverted : bool;
  ax_collections : list Scatter;
  ax_texts : list Text;
  ax_xlabel : string;
  ax_ylabel : string;
  ax_title : string;
  ax_grid : option Grid
}.

(** A figure of pyplot: its number in the registry and what it was created
    with. *)
Record Figure : Type := mkFigure {
  fig_number : nat;
  fig_figsize : Z * Z;
  fig_facecolor : string
}.

(** An image file: the chart that was saved and how. *)
Record Image : Type := mkImage {
  img_figure : Figure;
  img_axes : Axes;
  img_dpi : Z;
  img_bbox_inches : string
}.

Definition new_axes : Axes :=
  {| ax_facecolor := None; ax_xaxis_inverted := false; ax_collections := [];
     ax_texts := []; ax_xlabel := ""; ax_ylabel := ""; ax_title := "";
     ax_grid := None |}.

Definition set_facecolor (c : string) (ax : Axes) : Axes :=
  {| ax_facecolor := Some c; ax_xaxis_inverted := ax_xaxis_inverted ax;
     ax_collections := ax_collections ax; ax_texts := ax_texts ax;
     ax_xlabel := ax_xlabel ax; ax_ylabel := ax_ylabel ax; ax_title := ax_title ax;
     ax_grid := ax_grid ax |}.

Definition invert_xaxis (ax : Axes) : Axes :=
  {| ax_facecolor := ax_facecolor ax; ax_xaxis_inverted := negb (ax_xaxis_inverted ax);
     ax_collections := ax_collections ax; ax_texts := ax_texts ax;
     ax_xlabel := ax_xlabel ax; ax_ylabel := ax_ylabel ax; ax_title := ax_title ax;
     ax_grid := ax_grid ax |}.

Definition scatter (x y : list float) (s : list num) (c : string) (alpha : float)
    (ax : Axes) : Axes :=
  {| ax_facecolor := ax_facecolor ax; ax_xaxis_inverted := ax_xaxis_inverted ax;
     ax_collections := ax_collections ax ++ [mkScatter x y s c alpha];
     ax_texts := ax_texts ax;
     ax_xlabel := ax_xlabel ax; ax_ylabel := ax_ylabel ax; ax_title := ax_title ax;
     ax_grid := ax_grid ax |}.

Definition text (x y : float) (s : pyval) (color : string) (fontsize : Z)
    (ax : Axes) : Axes :=
  {| ax_facecolor := ax_facecolor ax; ax_xaxis_inverted := ax_xaxis_inverted ax;
     ax_collections := ax_collections ax;
     ax_texts := ax_texts ax ++ [mkText x y s color fontsize];
     ax_xlabel := ax_xlabel ax; ax_ylabel := ax_ylabel ax; ax_title := ax_title ax;
     ax_grid := ax_grid ax |}.

Definition set_xlabel (l : string) (ax : Axes) : Axes :=
  {| ax_facecolor := ax_facecolor ax; ax_xaxis_inverted := ax_xaxis_inverted ax;
     ax_collections := ax_collections ax; ax_texts := ax_texts ax;
     ax_xlabel := l; ax_ylabel := ax_ylabel ax; ax_title := ax_title ax;
     ax_grid := ax_grid ax |}.

Definition set_ylabel (l : string) (ax : Axes) : Axes :=
  {| ax_facecolor := ax_facecolor ax; ax_xaxis_inverted := ax_xaxis_inverted ax;
     ax_collections := ax_collections ax; ax_texts := ax_texts ax;
     ax_xlabel := ax_xlabel ax; ax_ylabel := l; ax_title := ax_title ax;
     ax_grid := ax_grid ax |}.

Definition set_title (l : string) (ax : Axes) : Axes :=
  {| ax_facecolor := ax_facecolor ax; ax_xaxis_inverted := ax_xaxis_inverted ax;
     ax_collections := ax_collections ax; ax_texts := ax_texts ax;
     ax_xlabel := ax_xlabel ax; ax_ylabel := ax_ylabel ax; ax_title := l;
     ax_grid := ax_grid ax |}.

Definition grid (color : string) (alpha : float) (ax : Axes) : Axes :=
  {| ax_facecolor := ax_facecolor ax; ax_xaxis_inverted := ax_xaxis_inverted ax;
     ax_collections := ax_collections ax; ax_texts := ax_texts ax;
     ax_xlabel := ax_xlabel ax; ax_ylabel := ax_ylabel ax; ax_title := ax_title ax;
     ax_grid := Some (mkGrid color alpha) |}.

(** The float literals [0.8] and [0.2]. *)
Definition f_0_8 : float :=
  Eval vm_compute in SFdiv Float.prec Float.emax (Float.of_int 8) (Float.of_int 10).
Definition f_0_2 : float :=
  Eval vm_compute in SFdiv Float.prec Float.emax (Float.of_int 2) (Float.of_int 10).

(** ** The world of a run *)

(** Why a file cannot be written: its directory does not exist, or it is
    not writable. *)
Inductive os_error : Type := NoSuchFile | PermissionDenied.

Definition os_exn (err : os_error) (path : string) : exn :=
  match err with
  | NoSuchFile => FileNotFoundError path
  | PermissionDenied => PermissionError path
  end.

Inductive event : Type :=
| EvOpen (path : string)
| EvSavefig (path : string).

Record World : Type := mkWorld {
  (* the CSV files that can be opened, each as the records csv.reader
     yields for it *)
  files : gmap string (list (list string));
  (* the error raised when an image is written at a path, if any *)
  write_error : string → option os_error;
  (* the image files written *)
  images : gmap string Image;
  (* the files currently open *)
  open_files : list string;
  (* the registry of pyplot: the numbers of the open figures *)
  figures : gset nat;
  stdout : list string;
  stderr : list string;
  (* the file operations attempted, oldest first *)
  log : list event
}.

Definition set_images (f : gmap string Image → gmap string Image) (w : World) : World :=
  {| files := files w; write_error := write_error w; images := f (images w);
     open_files := open_files w; figures := figures w; stdout := stdout w;
     stderr := stderr w; log := log w |}.

Definition set_open_files (f : list string → list string) (w : World) : World :=
  {| files := files w; write_error := write_error w; images := images w;
     open_files := f (open_files w); figures := figures w; stdout := stdout w;
     stderr := stderr w; log := log w |}.

Definition set_figures (f : gset nat → gset nat) (w : World) : World :=
  {| files := files w; write_error := write_error w; images := images w;
     open_files := open_files w; figures := f (figures w); stdout := stdout w;
     stderr := stderr w; log := log w |}.

Definition set_stdout (f : list string → list string) (w : World) : World :=
  {| files := files w; write_error := write_error w; images := images w;
     open_files := open_files w; figures := figures w; stdout := f (stdout w);
     stderr := stderr w; log := log w |}.

Definition set_stderr (f : list string → list string) (w : World) : World :=
  {| files := files w; write_error := write_error w; images := images w;
     open_files := open_files w; figures := figures w; stdout := stdout w;
     stderr := f (stderr w); log := log w |}.

Definition set_log (f : list event → list event) (w : World) : World :=
  {| files := files w; write_error := write_error w; images := images w;
     open_files := open_files w; figures := figures w; stdout := stdout w;
     stderr := stderr w; log := f (log w) |}.

(** Computations that may raise and that act on the world. *)
Definition M (A : Type) : Type := World → result A * World.

#[global] Instance M_ret : MRet M := λ A a w, (Ok a, w).
#[global] Instance M_bind : MBind M := λ A B k m w,
  match m w with
  | (Ok a, w') => k a w'
  | (Raise e, w') => (Raise e, w')
  end.

Definition lift {A} (r : result A) : M A := λ w, (r, w).
Definition modify (f : World → World) : M unit := λ w, (Ok (), f w).

(** [try: body finally: cleanup], the shape of a [with] block. *)
Definition finally {A} (body : M A) (cleanup : World → World) : M A := λ w,
  let '(r, w') := body w in (r, cleanup w').

(** [path.open(newline="")]: the records of the file, or
    [FileNotFoundError]. *)
Definition path_open (path : string) : M (list (list string)) := λ w,
  let w := set_log (λ l, l ++ [EvOpen path]) w in
  match files w !! path with
  | Some records => (Ok records, set_open_files (cons path) w)
  | None => (Raise (FileNotFoundError path), w)
  end.

(** [with path.open(newline="") as handle: body]: the file is closed on
    every way out of the body. *)
Definition with_open {A} (path : string) (body : list (list string) → M A) : M A :=
  handle ← path_open path;
  finally (body handle) (set_open_files (drop 1)).

(** [plt.subplots(figsize=..., facecolor=...)]: a new figure, registered
    under the number after the largest one in use, and its axes. *)
Definition subplots (figsize : Z * Z) (facecolor : string) : M (Figure * Axes) := λ w,
  let n := S (max_list (elements (figures w))) in
  (Ok (mkFigure n figsize facecolor, new_axes), set_figures (union {[n]}) w).

(** [fig.savefig(output, dpi=..., bbox_inches=...)]: the image is written,
    or the error of the file system for this path is raised. *)
Definition savefig (fig : Figure) (ax : Axes) (output : string) (dpi : Z)
    (bbox_inches : string) : M unit := λ w,
  let w := set_log (λ l, l ++ [EvSavefig output]) w in
  match write_error w output with
  | Some err => (Raise (os_exn err output), w)
  | None => (Ok (), set_images (insert output (mkImage fig ax dpi bbox_inches)) w)
  end.

(** [plt.close(fig)]. *)
Definition close (fig : Figure) : M unit :=
  modify (set_figures (λ figs, figs ∖ {[fig_number fig]})).

(** ** The renderer *)

(** The loop [for s in stars: ax.text(...)] of [plot_sky]. *)
Fixpoint draw_labels (style : gmap string string) (stars : list Star) (ax : Axes)
    : result Axes :=
  match stars with
  | [] => Ok ax
  | s :: stars' =>
      fg ← getitem style "fg";
      draw_labels style stars' (text (ra_deg s) (dec_deg s) (name s) fg 8 ax)
  end.

(** Lines 53 to 69 of [plot_sky]: what is drawn on the axes. *)
Definition draw_chart (style : gmap string string) (stars : list Star)
    (show_labels : bool) (ax : Axes) : result Axes :=
  bg ← getitem style "bg";
  let ax := set_facecolor bg ax in
  let ax := invert_xaxis ax in
  let ra := ra_deg <$> stars in
  let dec := dec_deg <$> stars in
  sizes ← list_comprehension (λ s, marker_size (mag s)) stars;
  fg ← getitem style "fg";
  let ax := scatter ra dec sizes fg f_0_8 ax in
  ax ← (if show_labels then draw_labels style stars ax else Ok ax);
  let ax := set_xlabel "Right Ascension (deg)" ax in
  let ax := set_ylabel "Declination (deg)" ax in
  let ax := set_title "Night Sky" ax in
  fg ← getitem style "fg";
  Ok (grid fg f_0_2 ax).

Definition plot_sky (stars : list Star) (theme : string) (show_labels : bool)
    (output : string) : M unit :=
  style ← lift (theme_style theme);
  bg ← lift (getitem style "bg");
  '(fig, ax) ← subplots (10, 6)%Z bg;
  ax ← lift (draw_chart style stars show_labels ax);
  savefig fig ax output 150 "tight";;
  close fig.

(** ** The command line *)

(** The result of [parse_args].  A path ([type=Path]) is kept as the string
    that was given. *)
Record Namespace : Type := mkNamespace {
  data : string;
  theme : string;
  show_labels : bool;
  output : string
}.

Inductive dest : Type := Help | Data | Theme | ShowLabels | Output.

(** The option strings of the parser, in the order they were added. *)
Definition option_string_actions : list (string * dest) :=
  [("-h", Help); ("--help", Help); ("--data", Data); ("--theme", Theme);
   ("--show-labels", ShowLabels); ("--output", Output)].

Fixpoint assoc {A} (key : string) (l : list (string * A)) : option A :=
  match l with
  | [] => None
  | (k, v) :: l' => if String.eqb k key then Some v else assoc key l'
  end.

(** The name of an action in error messages. *)
Definition action_name (d : dest) : string :=
  match d with
  | Help => "-h/--help"
  | Data => "--data"
  | Theme => "--theme"
  | ShowLabels => "--show-labels"
  | Output => "--output"
  end.

(** [s.split('=', 1)] when [s] contains ['=']. *)
Fixpoint split_eq (s : string) : option (string * string) :=
  match s with
  | EmptyString => None
  | String c r =>
      if Ascii.eqb c "="%char then Some (EmptyString, r)
      else match split_eq r with
           | Some (a, b) => Some (String c a, b)
           | None => None
           end
  end.

Fixpoint contains (c : ascii) (s : string) : bool :=
  match s with
  | EmptyString => false
  | String c' r => Ascii.eqb c c' || contains c r
  end.

Definition is_digit (c : ascii) : bool :=
  (48 <=? nat_of_ascii c)%nat && (nat_of_ascii c <=? 57)%nat.

Fixpoint skip_digits (s : string) : string :=
  match s with
  | String c r => if is_digit c then skip_digits r else s
  | EmptyString => s
  end.

(** One digit or more up to the end of the string ([$] also matches before
    a final newline). *)
Definition digits_to_end (s : string) : bool :=
  match s with
  | String c _ =>
      is_digit c &&
      (String.eqb (skip_digits s) "" || String.eqb (skip_digits s) (String "010"%char ""))
  | EmptyString => false
  end.

(** The pattern [^-\d+$|^-\d*\.\d+$] of argparse. *)
Definition negative_number (s : string) : bool :=
  match s with
  | String "-"%char r =>
      digits_to_end r ||
      match skip_digits r with
      | String "."%char r' => digits_to_end r'
      | _ => false
      end
  | _ => false
  end.

(** How argparse reads one argument string. *)
Inductive parsed_arg : Type :=
| Positional
| Optional (act : option dest) (option_string : string) (explicit_arg : option string)
| Ambiguous (matches : list string).

(** [_get_option_tuples]: the options an abbreviated or clustered argument
    may stand for. *)
Definition get_option_tuples (arg_string : string)
    : list (dest * string * option string) :=
  if String.prefix "--" arg_string then
    let '(option_prefix, explicit_arg) :=
      match split_eq arg_string with
      | Some (p, e) => (p, Some e)
      | None => (arg_string, None)
      end in
    omap (λ '(option_string, act),
            if String.prefix option_prefix option_string
            then Some (act, option_string, explicit_arg) else None)
         option_string_actions
  else
    let short_option_prefix := String.substring 0 2 arg_string in
    let short_explicit_arg :=
      String.substring 2 (String.length arg_string - 2) arg_string in
    omap (λ '(option_string, act),
            if String.eqb option_string short_option_prefix
            then Some (act, option_string, Some short_explicit_arg)
            else if String.prefix arg_string option_string
            then Some (act, option_string, None) else None)
         option_string_actions.

(** [_parse_optional]. *)
Definition parse_optional (arg_string : string) : parsed_arg :=
  match arg_string with
  | EmptyString => Positional
  | String c _ =>
      if negb (Ascii.eqb c "-"%char) then Positional
      else match assoc arg_string option_string_actions with
      | Some act => Optional (Some act) arg_string None
      | None =>
      if (String.length arg_string =? 1)%nat then Positional
      else
      let exact :=
        match split_eq arg_string with
        | Some (option_string, explicit_arg) =>
            match assoc option_string option_string_actions with
            | Some act => Some (Optional (Some act) option_string (Some explicit_arg))
            | None => None
            end
        | None => None
        end in
      match exact with
      | Some r => r
      | None =>
      match get_option_tuples arg_string with
      | (_ :: _ :: _) as tuples => Ambiguous ((λ t, t.1.2) <$> tuples)
      | [(act, option_string, explicit_arg)] =>
          Optional (Some act) option_string explicit_arg
      | [] =>
          if negative_number arg_string then Positional
          else if contains " "%char arg_string then Positional
          else Optional None arg_string None
      end end end
  end.

(** The argument strings as the parser sees them: an argument ([A]), the
    separator [--], or an option ([O]). *)
Inductive token : Type :=
| TArg (arg_string : string)
| TDashDash
| TOpt (act : option dest) (arg_string option_string : string)
       (explicit_arg : option string).

Inductive parse_outcome (A : Type) : Type :=
| Parsed (a : A)
| UsageError (msg : string)
| HelpExit.
Arguments Parsed {A} a.
Arguments UsageError {A} msg.
Arguments HelpExit {A}.

(** First pass of [_parse_known_args]: every argument string is classified;
    after [--] everything is an argument. *)
Fixpoint arg_strings_pattern (arg_strings : list string) : parse_outcome (list token) :=
  match arg_strings with
  | [] => Parsed []
  | arg_string :: rest =>
      if String.eqb arg_string "--" then Parsed (TDashDash :: (TArg <$> rest))
      else
        match parse_optional arg_string with
        | Ambiguous matches =>
            UsageError ("ambiguous option: " +:+ arg_string +:+ " could match "
                        +:+ String.concat ", " matches)
        | parsed =>
            match arg_strings_pattern rest with
            | Parsed toks =>
                Parsed (match parsed with
                        | Optional act option_string explicit_arg =>
                            TOpt act arg_string option_string explicit_arg
                        | _ => TArg arg_string
                        end :: toks)
            | UsageError msg => UsageError msg
            | HelpExit => HelpExit
            end
        end
  end.

(** The order of strings [sorted] uses. *)
Definition str_le (a b : string) : Prop := String.leb a b = true.
#[global] Instance str_le_dec : RelDecision str_le :=
  λ a b, decide (String.leb a b = true).

(** [sorted(THEMES)]. *)
Definition choices : list string :=
  merge_sort str_le ((map_to_list THEMES).*1).

Definition argument_error {A} (d : dest) (msg : string) : parse_outcome A :=
  UsageError ("argument " +:+ action_name d +:+ ": " +:+ msg).

(** The action of an option that takes one argument: conversion, check
    against the choices, and storing. *)
Definition store (d : dest) (value : string) (ns : Namespace) : parse_outcome Namespace :=
  match d with
  | Data => Parsed (mkNamespace value (theme ns) (show_labels ns) (output ns))
  | Theme =>
      if bool_decide (value ∈ choices)
      then Parsed (mkNamespace (data ns) value (show_labels ns) (output ns))
      else argument_error Theme
             ("invalid choice: " +:+ repr value +:+ " (choose from "
              +:+ String.concat ", " (repr <$> choices) +:+ ")")
  | Output => Parsed (mkNamespace (data ns) (theme ns) (show_labels ns) value)
  | ShowLabels => Parsed (mkNamespace (data ns) (theme ns) true (output ns))
  | Help => HelpExit
  end.

(** Does the option take an argument? *)
Definition takes_argument (d : dest) : bool :=
  match d with
  | Data | Theme | Output => true
  | Help | ShowLabels => false
  end.

(** The tail of a cluster of single-dash flags, as in [-hh]: each further
    character must name a flag; [-h] is the only one. *)
Fixpoint short_flags (explicit_arg : string) : parse_outcome unit :=
  match explicit_arg with
  | EmptyString => Parsed ()
  | String c r =>
      if Ascii.eqb c "h"%char then short_flags r
      else argument_error Help ("ignored explicit argument " +:+ repr explicit_arg)
  end.

(** Second pass of [_parse_known_args]: the options are consumed from left
    to right, each taking its action at once; what is neither an option nor
    the argument of one is collected in [extras]. *)
Fixpoint consume (toks : list token) (ns : Namespace) (extras : list string)
    : parse_outcome Namespace :=
  match toks with
  | [] =>
      match extras with
      | [] => Parsed ns
      | _ => UsageError ("unrecognized arguments: " +:+ String.concat " " extras)
      end
  | TArg s :: rest => consume rest ns (extras ++ [s])
  | TDashDash :: rest => consume rest ns (extras ++ ["--"])
  | TOpt None arg_string _ _ :: rest => consume rest ns (extras ++ [arg_string])
  | TOpt (Some d) _ option_string explicit_arg :: rest =>
      if takes_argument d then
        match explicit_arg, rest with
        | Some value, _ =>
            match store d value ns with
            | Parsed ns' => consume rest ns' extras
            | stop => stop
            end
        | None, TArg value :: rest' =>
            match store d value ns with
            | Parsed ns' => consume rest' ns' extras
            | stop => stop
            end
        | None, _ => argument_error d "expected one argument"
        end
      else
        match explicit_arg with
        | None =>
            match store d "" ns with
            | Parsed ns' => consume rest ns' extras
            | stop => stop
            end
        | Some e =>
            if negb (String.prefix "--" option_string) && negb (String.eqb e "") then
              match short_flags e with
              | Parsed _ => HelpExit
              | UsageError msg => UsageError msg
              | HelpExit => HelpExit
              end
            else argument_error d ("ignored explicit argument " +:+ repr e)
        end
  end.

Definition default_namespace : Namespace :=
  mkNamespace "data/stars.csv" "dark" false "night_sky.png".

Definition parse_known_args (argv : list string) : parse_outcome Namespace :=
  match arg_strings_pattern argv with
  | Parsed toks => consume toks default_namespace []
  | UsageError msg => UsageError msg
  | HelpExit => HelpExit
  end.

Definition format_usage : list string :=
  ["usage: night_sky.py [-h] [--data DATA] [--theme {dark,light}] [--show-labels]";
   "                    [--output OUTPUT]"].

Definition format_help : list string :=
  format_usage ++
  [""; "Simple night sky visualizer using matplotlib. Reads star data from a CSV file";
   "and produces a sky chart image."; ""; "options:";
   "  -h, --help            show this help message and exit";
   "  --data DATA           Path to star catalogue CSV";
   "  --theme {dark,light}  Colour theme for the chart";
   "  --show-labels         Draw star names next to their positions";
   "  --output OUTPUT       File to save the generated image"].

(** [parser.parse_args()]: an error prints the usage and the message on
    the standard error and exits with status 2; [-h] prints the help on the
    standard output and exits with status 0. *)
Definition parse_args (argv : list string) : M Namespace := λ w,
  match parse_known_args argv with
  | Parsed ns => (Ok ns, w)
  | UsageError msg =>
      (Raise (SystemExit 2),
       set_stderr (λ l, l ++ format_usage ++ ["night_sky.py: error: " +:+ msg]) w)
  | HelpExit => (Raise (SystemExit 0), set_stdout (λ l, l ++ format_help) w)
  end.

(** ** What the interpreter prints for an exception *)

Definition exn_name (e : exn) : string :=
  match e with
  | FileNotFoundError _ => "FileNotFoundError"
  | PermissionError _ => "PermissionError"
  | KeyError _ => "KeyError"
  | ValueError _ => "ValueError"
  | TypeError _ => "TypeError"
  | OverflowError _ => "OverflowError"
  | SystemExit _ => "SystemExit"
  end.

Definition exn_str (e : exn) : string :=
  match e with
  | FileNotFoundError path => "[Errno 2] No such file or directory: " +:+ repr path
  | PermissionError path => "[Errno 13] Permission denied: " +:+ repr path
  | KeyError key => repr key
  | ValueError msg | TypeError msg | OverflowError msg => msg
  | SystemExit _ => ""
  end.

(** The traceback of an uncaught exception (the stack frames between the
    two lines are left out). *)
Definition traceback (e : exn) : list string :=
  ["Traceback (most recent call last):"; exn_name e +:+ ": " +:+ exn_str e].

(** ** The loader and the program *)

Section Program.

(** The conversion of a string to a float by the builtin [float]:
    [None] when the string is not the writing of a float. *)
Variable float_of_str : string → option float.

(** [float(v)]. *)
Definition py_float (v : pyval) : result float :=
  match v with
  | PStr s =>
      match float_of_str s with
      | Some x => Ok x
      | None => Raise (ValueError ("could not convert string to float: " +:+ repr s))
      end
  | PNone =>
      Raise (TypeError "float() argument must be a string or a real number, not 'NoneType'")
  | PList _ =>
      Raise (TypeError "float() argument must be a string or a real number, not 'list'")
  end.

(** [Star(name=row["name"], ra_deg=float(row["ra_deg"]), ...)]: the
    arguments are evaluated from left to right. *)
Definition star_of_row (row : row_dict) : result Star :=
  name ← row_getitem row "name";
  ra_deg ← row_getitem row "ra_deg" ≫= py_float;
  dec_deg ← row_getitem row "dec_deg" ≫= py_float;
  mag ← row_getitem row "mag" ≫= py_float;
  Ok (mkStar name ra_deg dec_deg mag).

(** The loop [for row in reader: stars.append(...)]. *)
Fixpoint read_rows (reader : list row_dict) (stars : list Star) : result (list Star) :=
  match reader with
  | [] => Ok stars
  | row :: reader' =>
      star ← star_of_row row;
      read_rows reader' (stars ++ [star])
  end.

Definition read_stars (path : string) : M (list Star) :=
  with_open path (λ handle, lift (read_rows (DictReader handle) [])).

Definition main (argv : list string) : M unit :=
  args ← parse_args argv;
  stars ← read_stars (data args);
  plot_sky stars (theme args) (show_labels args) (output args).

(** Running the script: the exit status of the process and the world it
    leaves.  An uncaught exception prints its traceback on the standard
    error and gives the status 1; [SystemExit] gives its code. *)
Definition run (argv : list string) (w : World) : Z * World :=
  match main argv w with
  | (Ok _, w') => (0%Z, w')
  | (Raise (SystemExit code), w') => (code, w')
  | (Raise e, w') => (1%Z, set_stderr (λ l, l ++ traceback e) w')
  end.

End Program.

(** ** Concrete data for examples *)

Fixpoint digits_value (s : string) (acc : Z) : option Z :=
  match s with
  | EmptyString => Some acc
  | String c r =>
      if is_digit c
      then digits_value r (10 * acc + Z.of_nat (nat_of_ascii c) - 48)%Z
      else None
  end.

(** [float] on the writings of the integers: an optional minus sign and
    decimal digits. *)
Definition float_of_int_str (s : string) : option float :=
  match s with
  | EmptyString => None
  | String "-"%char EmptyString => None
  | String "-"%char r => (λ z, SFopp (Float.of_int z)) <$> digits_value r 0
  | _ => Float.of_int <$> digits_value s 0
  end.

(** A world with the given CSV files, where every image can be written
    but those at [denied], and nothing else. *)
Definition world_with (csv : gmap string (list (list string)))
    (denied : gmap string os_error) : World :=
  {| files := csv; write_error := λ path, denied !! path; images := ∅;
     open_files := []; figures := ∅; stdout := []; stderr := []; log := [] |}.

Definition required_columns : list string := ["name"; "ra_deg"; "dec_deg"; "mag"].
Definition numeric_columns : list string := ["ra_deg"; "dec_deg"; "mag"].

(** The records [csv.DictReader] makes rows of: those that are not blank
    lines. *)
Definition data_rows (rows : list (list string)) : list (list string) :=
  filter (λ r, r ≠ []) rows.

(** The value [csv.DictReader] gives a row under a column. *)
Definition field (fieldnames row : list string) (column : string) : option pyval :=
  make_row fieldnames row !! Some column.

(** The row has, under the column, the writing of a float. *)
Definition parseable (float_of_str : string → option float)
    (fieldnames row : list string) (column : string) : Prop :=
  ∃ s x, field fieldnames row column = Some (PStr s) ∧ float_of_str s = Some x.

(** A record from which [read_stars] builds a star. *)
Definition loadable (float_of_str : string → option float)
    (fieldnames row : list string) : Prop :=
  ∀ c, c ∈ numeric_columns → parseable float_of_str fieldnames row c.

(** The numeric columns [read_stars] converts before a given one. *)
Definition columns_before (column : string) : list string :=
  if String.eqb column "ra_deg" then []
  else if String.eqb column "dec_deg" then ["ra_deg"]
  else ["ra_deg"; "dec_deg"].

(** The star is what [read_stars] builds from the record: the name as it
    is in the row, the three numbers converted by [float]. *)
Definition star_from (float_of_str : string → option float)
    (fieldnames row : list string) (star : Star) : Prop :=
  field fieldnames row "name" = Some (name star)
  ∧ (∃ s, field fieldnames row "ra_deg" = Some (PStr s)
          ∧ float_of_str s = Some (ra_deg star))
  ∧ (∃ s, field fieldnames row "dec_deg" = Some (PStr s)
          ∧ float_of_str s = Some (dec_deg star))
  ∧ (∃ s, field fieldnames row "mag" = Some (PStr s)
          ∧ float_of_str s = Some (mag star)).

(** The world after a file was opened, read and closed. *)
Definition opened (path : string) (w : World) : World :=
  set_log (λ l, l ++ [EvOpen path]) w.

(** The exceptions that end the process with their own status. *)
Definition is_exit (e : exn) : bool :=
  match e with
  | SystemExit _ => true
  | _ => false
  end.

(** The number [plt.subplots] gives the next figure. *)
Definition next_figure (w : World) : nat := S (max_list (elements (figures w))).

(** The world after a figure was created and before it is saved. *)
Definition drawing (w : World) : World := set_figures (union {[next_figure w]}) w.

(** The world after [savefig] was attempted. *)
Definition saving (output : string) (w : World) : World :=
  set_log (λ l, l ++ [EvSavefig output]) (drawing w).

(** The two colours [plot_sky] takes from the style of a theme:
    [style["bg"]] and [style["fg"]]. *)
Definition theme_colours (theme : string) : result (string * string) :=
  style ← theme_style theme;
  bg ← getitem style "bg";
  fg ← getitem style "fg";
  Ok (bg, fg).

(** The chart of an empty catalogue. *)
Definition empty_chart (bg fg : string) : Axes :=
  {| ax_facecolor := Some bg; ax_xaxis_inverted := true;
     ax_collections := [mkScatter [] [] [] fg f_0_8]; ax_texts := [];
     ax_xlabel := "Right Ascension (deg)"; ax_ylabel := "Declination (deg)";
     ax_title := "Night Sky"; ax_grid := Some (mkGrid fg f_0_2) |}.

(** A catalogue and some damaged variants of it. *)
Definition header : list string := ["name"; "ra_deg"; "dec_deg"; "mag"].
Definition vega : list string := ["Vega"; "279"; "38"; "0"].
Definition sirius : list string := ["Sirius"; "101"; "-16"; "-1"].

Definition csv_world (records : list (list string)) : World :=
  world_with {[ "data/stars.csv" := records ]} ∅.

(** A row whose right ascension is the text [abc]. *)
Definition not_a_number : list string := ["Rigel"; "abc"; "-8"; "0"].
(** A row with two values only. *)
Definition short_row : list string := ["Deneb"; "310"].
(** A header without the column [mag], and a row for it. *)
Definition header_without_mag : list string := ["name"; "ra_deg"; "dec_deg"].
Definition vega_without_mag : list string := ["Vega"; "279"; "38"].
(** A header with a fifth column, for which the rows may have no value. *)
Definition header_with_notes : list string :=
  ["name"; "ra_deg"; "dec_deg"; "mag"; "notes"].

(** A world where the image cannot be written: the directory is missing. *)
Definition no_directory_world : World :=
  world_with ∅ {[ "charts/night_sky.png" := NoSuchFile ]}.

(** Tokens at which every parse stops with a usage error, and which do not
    begin with the argument an option before them could take. *)
Definition stopper (X : list token) : Prop :=
  (∀ ns extras, ∃ msg, consume X ns extras = UsageError msg)
  ∧ match X with
    | [] | TArg _ :: _ => False
    | _ => True
    end.

(** ** Descriptions of catalogues, charts and command lines *)

(** The star of a record, read at the places the four columns have in the
    header. *)
Definition star_at (float_of_str : string → option float)
    (i_name i_ra i_dec i_mag : nat) (r : list string) : option Star :=
  n ← r !! i_name;
  x1 ← r !! i_ra ≫= float_of_str;
  x2 ← r !! i_dec ≫= float_of_str;
  x3 ← r !! i_mag ≫= float_of_str;
  Some (mkStar (PStr n) x1 x2 x3).

(** The label [ax.text] draws for a star. *)
Definition star_label (fg : string) (s : Star) : Text :=
  mkText (ra_deg s) (dec_deg s) (name s) fg 8.

(** The chart of a catalogue: one collection with a marker per star, and
    one label per star when labels are asked for. *)
Definition chart (bg fg : string) (stars : list Star) (sizes : list num)
    (labels : bool) : Axes :=
  {| ax_facecolor := Some bg; ax_xaxis_inverted := true;
     ax_collections := [mkScatter (ra_deg <$> stars) (dec_deg <$> stars) sizes fg f_0_8];
     ax_texts := if labels then star_label fg <$> stars else [];
     ax_xlabel := "Right Ascension (deg)"; ax_ylabel := "Declination (deg)";
     ax_title := "Night Sky"; ax_grid := Some (mkGrid fg f_0_2) |}.

(** An argument that cannot be taken for an option: it does not begin with
    a dash. *)
Definition plain (s : string) : Prop := String.prefix "-" s = false.

(** An option as it is given on a command line in its full form, the value
    in an argument of its own. *)
Inductive given : Type :=
| GivenData (value : string)
| GivenTheme (value : string)
| GivenShowLabels
| GivenOutput (value : string).

Definition given_strings (g : given) : list string :=
  match g with
  | GivenData value => ["--data"; value]
  | GivenTheme value => ["--theme"; value]
  | GivenShowLabels => ["--show-labels"]
  | GivenOutput value => ["--output"; value]
  end.

(** The command line that gives these options, in this order. *)
Definition command_line (gs : list given) : list string := gs ≫= given_strings.

(** The values are arguments, and the theme is a registered one. *)
Definition given_ok (g : given) : Prop :=
  match g with
  | GivenData value | GivenOutput value => plain value
  | GivenTheme value => plain value ∧ is_Some (THEMES !! value)
  | GivenShowLabels => True
  end.

(** What the option stores. *)
Definition set_given (ns : Namespace) (g : given) : Namespace :=
  match g with
  | GivenData value => mkNamespace value (theme ns) (show_labels ns) (output ns)
  | GivenTheme value => mkNamespace (data ns) value (show_labels ns) (output ns)
  | GivenShowLabels => mkNamespace (data ns) (theme ns) true (output ns)
  | GivenOutput value => mkNamespace (data ns) (theme ns) (show_labels ns) value
  end.

Definition given_tokens (g : given) : list token :=
  match g with
  | GivenData value => [TOpt (Some Data) "--data" "--data" None; TArg value]
  | GivenTheme value => [TOpt (Some Theme) "--theme" "--theme" None; TArg value]
  | GivenShowLabels => [TOpt (Some ShowLabels) "--show-labels" "--show-labels" None]
  | GivenOutput value => [TOpt (Some Output) "--output" "--output" None; TArg value]
  end.

(** Tokens that do not begin with an argument. *)
Definition option_first (X : list token) : Prop :=
  match X with
  | TArg _ :: _ => False
  | _ => True
  end.

(** What the conversion of one column of a row can raise: the [KeyError]
    of a column that is not in the header, the [TypeError] of a column the
    row has no value for, or the [ValueError] of a text that is not the
    writing of a float. *)
Definition column_error (float_of_str : string → option float)
    (fieldnames r : list string) (c : string) (e : exn) : Prop :=
  ((c ∉ fieldnames) ∧ e = KeyError c)
  ∨ (field fieldnames r c = Some PNone
     ∧ e = TypeError "float() argument must be a string or a real number, not 'NoneType'")
  ∨ (∃ s, field fieldnames r c = Some (PStr s) ∧ float_of_str s = None
          ∧ e = ValueError ("could not convert string to float: " +:+ repr s)).

(** [val_le m1 e1 m2 e2]: the number [m1 * 2 ^ e1] is at most
    [m2 * 2 ^ e2]; both are brought to the smaller exponent. *)
Definition val_le (m1 e1 m2 e2 : Z) : Prop :=
  (m1 * 2 ^ (e1 - Z.min e1 e2) ≤ m2 * 2 ^ (e2 - Z.min e1 e2))%Z.

(** The double [4.5]. *)
Definition f_4_5 : float :=
  Eval vm_compute in SFdiv Float.prec Float.emax (Float.of_int 9) (Float.of_int 2).

(** A catalogue whose columns are in another order. *)
Definition header_mixed : list string := ["mag"; "name"; "dec_deg"; "ra_deg"].
Definition vega_mixed : list string := ["0"; "Vega"; "38"; "279"].

Definition vega_star : Star :=
  mkStar (PStr "Vega") (Float.of_int 279) (Float.of_int 38) (Float.of_int 0).

(** A star whose marker size is out of range. *)
Definition far_star : Star :=
  mkStar (PStr "far") (Float.of_int 0) (Float.of_int 0) f_minus_1e200.

(** ** The clamp of the marker size *)

Ltac case_compare H :=
  match type of H with
  | context [(?a ?= ?b)%Z] => destruct (Z.compare_spec a b); try discriminate H
  end.

Section Rounding.
Local Open Scope Z_scope.

Lemma ge1_mono m m' e : ge1 m e → m ≤ m' → ge1 m' e.
Proof. unfold ge1. intros [Hm He] Hle. split; [lia|]. intros H. specialize (He H). lia. Qed.

Lemma iter_pos_nat {A} (f : A → A) p x :
  SpecFloat.iter_pos f p x = Nat.iter (Pos.to_nat p) f x.
Proof.
  revert x. induction p as [p IH|p IH|]; intros x; cbn [SpecFloat.iter_pos].
  - rewrite !IH, Pos2Nat.inj_xI.
    replace (S (2 * Pos.to_nat p))%nat with (Pos.to_nat p + Pos.to_nat p + 1)%nat by lia.
    rewrite !Nat.iter_add. reflexivity.
  - rewrite !IH, Pos2Nat.inj_xO.
    replace (2 * Pos.to_nat p)%nat with (Pos.to_nat p + Pos.to_nat p)%nat by lia.
    rewrite Nat.iter_add. reflexivity.
  - reflexivity.
Qed.

Lemma shr_1_m mrs : 0 ≤ shr_m mrs → shr_m (shr_1 mrs) = shr_m mrs / 2.
Proof.
  destruct mrs as [m r s]. simpl. intros Hm.
  destruct m as [|p|p]; [reflexivity| |lia].
  destruct p as [p|p|]; simpl.
  - rewrite Pos2Z.inj_xI. apply Z.div_unique with (r := 1); lia.
  - rewrite Pos2Z.inj_xO. apply Z.div_unique with (r := 0); lia.
  - reflexivity.
Qed.

Lemma shr_iter_m n mrs :
  0 ≤ shr_m mrs → shr_m (Nat.iter n shr_1 mrs) = shr_m mrs / 2 ^ Z.of_nat n.
Proof.
  intros Hm. induction n as [|n IH].
  - simpl. now rewrite Z.div_1_r.
  - rewrite Nat2Z.inj_succ, Z.pow_succ_r by lia. simpl.
    rewrite shr_1_m, IH.
    + rewrite Z.div_div by lia. f_equal. lia.
    + rewrite IH. apply Z.div_pos; lia.
Qed.

Lemma digits2_pos_lower p : 2 ^ (Zpos (digits2_pos p) - 1) ≤ Zpos p.
Proof.
  induction p as [p IH|p IH|]; simpl digits2_pos.
  - rewrite Pos2Z.inj_succ, (Pos2Z.inj_xI p).
    replace (Z.succ (Zpos (digits2_pos p)) - 1) with (Z.succ (Zpos (digits2_pos p) - 1)) by lia.
    rewrite Z.pow_succ_r by lia. lia.
  - rewrite Pos2Z.inj_succ, (Pos2Z.inj_xO p).
    replace (Z.succ (Zpos (digits2_pos p)) - 1) with (Z.succ (Zpos (digits2_pos p) - 1)) by lia.
    rewrite Z.pow_succ_r by lia. lia.
  - simpl. lia.
Qed.

Lemma shr_record_of_loc_m m l : shr_m (shr_record_of_loc m l) = m.
Proof. destruct l as [|[]]; reflexivity. Qed.

(** One shift to the working exponent keeps a number at or above one. *)
Lemma shr_fexp_ge1 m e l :
  ge1 m e →
  ge1 (shr_m (shr_fexp Float.prec Float.emax m e l).1) (shr_fexp Float.prec Float.emax m e l).2.
Proof.
  intros [Hm He]. unfold shr_fexp, shr.
  destruct (fexp Float.prec Float.emax (Zdigits2 m + e) - e) as [|p|p] eqn:Hn; simpl;
    rewrite ?shr_record_of_loc_m; try (split; assumption).
  rewrite iter_pos_nat, shr_iter_m by (rewrite shr_record_of_loc_m; lia).
  rewrite shr_record_of_loc_m, positive_nat_Z.
  assert (Hp : 0 < 2 ^ Zpos p) by (apply Z.pow_pos_nonneg; lia).
  destruct (Z_le_gt_dec (e + Zpos p) 0) as [Hle|Hgt].
  - assert (Hlow : 2 ^ (- (e + Zpos p)) ≤ m / 2 ^ Zpos p).
    { apply Z.div_le_lower_bound; [lia|].
      rewrite <- Z.pow_add_r by lia.
      replace (Zpos p + - (e + Zpos p)) with (- e) by lia. apply He. lia. }
    assert (0 < 2 ^ (- (e + Zpos p))) by (apply Z.pow_pos_nonneg; lia).
    split; [lia|]. intros _. exact Hlow.
  - split; [|lia].
    destruct m as [|q|q]; try lia. simpl Zdigits2 in Hn.
    unfold fexp, emin, Float.prec, Float.emax in Hn.
    assert (Hd : Zpos p = Zpos (digits2_pos q) - 53) by lia.
    pose proof (digits2_pos_lower q) as Hq.
    assert (2 ^ Zpos p ≤ 2 ^ (Zpos (digits2_pos q) - 1)) by (apply Z.pow_le_mono_r; lia).
    assert (1 ≤ Zpos q / 2 ^ Zpos p) by (apply Z.div_le_lower_bound; lia).
    lia.
Qed.

Lemma round_nearest_even_ge m l : m ≤ round_nearest_even m l.
Proof. destruct l as [|[]]; simpl; try lia. destruct (Z.even m); lia. Qed.

(** Rounding a number that is at least one gives a finite number that is
    at least one, or overflows to infinity. *)
Lemma binary_round_aux_ge1 sx m e l :
  ge1 m e →
  binary_round_aux Float.prec Float.emax sx m e l = S754_infinity sx ∨
  ∃ m' e', binary_round_aux Float.prec Float.emax sx m e l = S754_finite sx m' e'
           ∧ ge1 (Zpos m') e'.
Proof.
  intros H. unfold binary_round_aux.
  pose proof (shr_fexp_ge1 m e l H) as H1.
  destruct (shr_fexp Float.prec Float.emax m e l) as [mrs1 e1]. simpl in H1.
  pose proof (ge1_mono _ _ _ H1
    (round_nearest_even_ge (shr_m mrs1) (loc_of_shr_record mrs1))) as H2.
  pose proof (shr_fexp_ge1 _ _ loc_Exact H2) as H3.
  destruct (shr_fexp Float.prec Float.emax
    (round_nearest_even (shr_m mrs1) (loc_of_shr_record mrs1)) e1 loc_Exact) as [mrs2 e2].
  simpl in H3. destruct (shr_m mrs2) as [|q|q]; try (destruct H3; lia).
  destruct (e2 <=? Float.emax - Float.prec); [right|left]; eauto.
Qed.

Lemma gt_int_1_inv x :
  Float.gt_int x 1 = true →
  x = S754_infinity false ∨ ∃ m e, x = S754_finite false m e ∧ ge1 (Zpos m * Zpos m) (e + e).
Proof.
  unfold Float.gt_int, Float.compare_int.
  destruct x as [s|s| |s m e]; try discriminate.
  - destruct s; [discriminate|]. now left.
  - intros H. right.
    destruct s; cbn [cond_Zopp] in H.
    + exfalso. pose proof (Pos2Z.is_pos m).
      destruct (0 <=? e) eqn:He.
      * apply Z.leb_le in He. assert (0 < 2 ^ e) by (apply Z.pow_pos_nonneg; lia).
        case_compare H. nia.
      * apply Z.leb_gt in He. assert (0 < 2 ^ (- e)) by (apply Z.pow_pos_nonneg; lia).
        case_compare H. lia.
    + exists m, e. split; [reflexivity|]. split; [lia|]. intros Hle.
      destruct (0 <=? e) eqn:He.
      * apply Z.leb_le in He. replace e with 0 by lia. simpl. lia.
      * apply Z.leb_gt in He. case_compare H.
        replace (- (e + e)) with (- e + - e) by lia.
        rewrite Z.pow_add_r by lia.
        assert (0 < 2 ^ (- e)) by (apply Z.pow_pos_nonneg; lia). nia.
Qed.

Lemma ge1_ge_int m e : ge1 (Zpos m) e → Float.ge_int (S754_finite false m e) 1 = true.
Proof.
  intros [Hm He]. unfold Float.ge_int, Float.compare_int. cbn [cond_Zopp].
  destruct (0 <=? e) eqn:Hs.
  - apply Z.leb_le in Hs. assert (0 < 2 ^ e) by (apply Z.pow_pos_nonneg; lia).
    destruct (Z.compare_spec (Zpos m * 2 ^ e) 1); try reflexivity. nia.
  - apply Z.leb_gt in Hs. specialize (He ltac:(lia)).
    destruct (Z.compare_spec (Zpos m) (1 * 2 ^ (- e))); try reflexivity. lia.
Qed.

End Rounding.

(** ** The marker size *)

(** The marker size for a magnitude: 1 behind the clamp, a square that is
    at least 1 before it, or no size when the square is out of range. *)
Lemma marker_size_cases (m : float) :
  if Float.gt_int (brightness m) 1
  then (∃ v, Float.pow2 (brightness m) = Ok v
             ∧ marker_size m = Ok (PFloat v)
             ∧ num_ge_1 (PFloat v) = true)
       ∨ (Float.is_finite (brightness m) = true
          ∧ marker_size m
            = Raise (OverflowError "(34, 'Numerical result out of range')"))
  else marker_size m = Ok (PInt 1) ∧ num_ge_1 (PInt 1) = true.
Proof.
  unfold marker_size, max_1.
  destruct (Float.gt_int (brightness m) 1) eqn:Hgt; [|split; reflexivity].
  apply gt_int_1_inv in Hgt as [Hinf|(p & e & Hx & Hge)].
  - left. rewrite Hinf. exists (S754_infinity false). repeat split.
  - rewrite Hx. cbn [num_pow2 Float.pow2 SFabs Float.mul SFmul xorb Float.is_finite].
    destruct (binary_round_aux_ge1 false _ _ loc_Exact Hge) as [Hr|(p' & e' & Hr & Hge')].
    + right. change (Z.pos (p * p)) with (Z.pos p * Z.pos p)%Z. rewrite Hr. split; reflexivity.
    + left. change (Z.pos (p * p)) with (Z.pos p * Z.pos p)%Z. rewrite Hr.
      exists (S754_finite false p' e'). repeat split. now apply ge1_ge_int.
Qed.



(** The clamp at work on large magnitudes: [1e300], the largest float,
    infinity, and also a NaN. *)
Example marker_size_faint :
  marker_size f_1e300 = Ok (PInt 1)
  ∧ marker_size f_max = Ok (PInt 1)
  ∧ marker_size (S754_infinity false) = Ok (PInt 1)
  ∧ marker_size S754_nan = Ok (PInt 1).
Proof. repeat split; vm_compute; reflexivity. Qed.

(** The sizes [plot_sky] hands to [scatter]: one per star, each at least 1. *)
Lemma marker_sizes_ge_1 (stars : list Star) (sizes : list num) :
  list_comprehension (λ s, marker_size (mag s)) stars = Ok sizes →
  Forall2 (λ s v, marker_size (mag s) = Ok v ∧ num_ge_1 v = true) stars sizes.
Proof.
  revert sizes. induction stars as [|s stars IH]; intros sizes; cbn [list_comprehension].
  - intros [= <-]. constructor.
  - pose proof (marker_size_cases (mag s)) as Hs.
    destruct (marker_size (mag s)) as [v|e] eqn:Hv; [|discriminate].
    cbn. destruct (list_comprehension _ stars) as [vs|e]; [|discriminate].
    cbn. intros [= <-]. constructor; [|now apply IH].
    split; [exact Hv|].
    destruct (Float.gt_int _ 1).
    + destruct Hs as [(v' & _ & [= ->] & Hge)|[_ [=]]]. exact Hge.
    + destruct Hs as [[= ->] Hge]. exact Hge.
Qed.

(** ** The rows of [csv.DictReader] *)

Section Rows.
Implicit Types (d : row_dict) (k c : string) (l : list (string * string)).

Lemma zip_fold_notin l d k :
  k ∉ l.*1 → foldl (λ d kv, <[Some kv.1 := PStr kv.2]> d) d l !! Some k = d !! Some k.
Proof.
  revert d. induction l as [|[k' v] l IH]; intros d Hk; [reflexivity|].
  rewrite fmap_cons in Hk. apply not_elem_of_cons in Hk as [Hne Hk].
  cbn [foldl]. rewrite IH by assumption. cbn in *.
  apply lookup_insert_ne. congruence.
Qed.

Lemma zip_fold_in l d k :
  k ∈ l.*1 → ∃ s, foldl (λ d kv, <[Some kv.1 := PStr kv.2]> d) d l !! Some k = Some (PStr s).
Proof.
  revert d. induction l as [|[k' v] l IH]; intros d Hk.
  - rewrite fmap_nil in Hk. now apply elem_of_nil in Hk.
  - cbn [foldl]. destruct (decide (k ∈ l.*1)) as [Hin|Hout]; [now apply IH|].
    rewrite fmap_cons in Hk. apply elem_of_cons in Hk as [->|Hk]; [|contradiction].
    exists v. rewrite zip_fold_notin by assumption. apply lookup_insert_eq.
Qed.

Lemma fst_zip_take {A B} (xs : list A) (ys : list B) :
  (zip xs ys).*1 = take (length ys) xs.
Proof.
  revert ys. induction xs as [|x xs IH]; intros [|y ys]; cbn; try reflexivity.
  now rewrite IH.
Qed.

Lemma lookup_fill_restval d (keys : list string) k :
  fill_restval d keys !! Some k = if decide (k ∈ keys) then Some PNone else d !! Some k.
Proof.
  unfold fill_restval. revert d. induction keys as [|k' keys IH]; intros d.
  - cbn. case_decide as H; [now apply elem_of_nil in H|reflexivity].
  - cbn [foldl]. rewrite IH. destruct (decide (k ∈ keys)) as [Hin|Hout].
    + rewrite decide_True by (now right). reflexivity.
    + destruct (decide (k = k')) as [->|Hne].
      * rewrite decide_True by (now left). apply lookup_insert_eq.
      * rewrite decide_False by (intros [?|?]%elem_of_cons; contradiction).
        apply lookup_insert_ne. congruence.
Qed.

Lemma lookup_dict_zip_notin (fieldnames row : list string) c :
  c ∉ fieldnames → dict_zip fieldnames row !! Some c = None.
Proof.
  intros Hc. unfold dict_zip. rewrite zip_fold_notin; [apply lookup_empty|].
  rewrite fst_zip_take. intros Hin%elem_of_take. destruct Hin as (i & Hi & _).
  apply Hc. eapply list_elem_of_lookup_2, Hi.
Qed.

(** A column that is not in the header is not in the row. *)
Lemma field_missing (fieldnames row : list string) c :
  c ∉ fieldnames → field fieldnames row c = None.
Proof.
  intros Hc. unfold field, make_row.
  destruct (length fieldnames <? length row)%nat.
  - rewrite lookup_insert_ne by discriminate. now apply lookup_dict_zip_notin.
  - destruct (length row <? length fieldnames)%nat.
    + rewrite lookup_fill_restval, decide_False; [now apply lookup_dict_zip_notin|].
      intros Hin. apply Hc. eapply list_elem_of_lookup in Hin as [i Hi].
      rewrite lookup_drop in Hi. eapply list_elem_of_lookup_2, Hi.
    + now apply lookup_dict_zip_notin.
Qed.

(** A column beyond the values of the row reads [None]. *)
Lemma field_beyond (fieldnames row : list string) c :
  c ∈ drop (length row) fieldnames → field fieldnames row c = Some PNone.
Proof.
  intros Hc. unfold field, make_row.
  assert (Hlt : length row < length fieldnames).
  { destruct (decide (length row < length fieldnames)) as [|Hge]; [assumption|].
    rewrite drop_ge in Hc by lia. now apply elem_of_nil in Hc. }
  rewrite (proj2 (Nat.ltb_ge _ _)) by lia.
  rewrite (proj2 (Nat.ltb_lt _ _)) by lia.
  rewrite lookup_fill_restval. now rewrite decide_True.
Qed.

(** A column of the header within the values of the row reads a string. *)
Lemma field_within (fieldnames row : list string) c :
  c ∈ take (length row) fieldnames → c ∉ drop (length row) fieldnames →
  ∃ s, field fieldnames row c = Some (PStr s).
Proof.
  intros Hin Hout. unfold field, make_row.
  assert (Hz : ∃ s, dict_zip fieldnames row !! Some c = Some (PStr s)).
  { unfold dict_zip. apply zip_fold_in. now rewrite fst_zip_take. }
  destruct (length fieldnames <? length row)%nat.
  - now rewrite lookup_insert_ne by discriminate.
  - destruct (length row <? length fieldnames)%nat; [|assumption].
    now rewrite lookup_fill_restval, decide_False.
Qed.

(** Every column of the header has a value in the row. *)
Lemma field_present (fieldnames row : list string) c :
  c ∈ fieldnames → is_Some (field fieldnames row c).
Proof.
  intros Hc. destruct (decide (c ∈ drop (length row) fieldnames)) as [Hd|Hd].
  - rewrite field_beyond by assumption. eauto.
  - rewrite <- (take_drop (length row) fieldnames) in Hc.
    apply elem_of_app in Hc as [Ht|?]; [|contradiction].
    destruct (field_within _ _ _ Ht Hd) as [s ->]. eauto.
Qed.

Lemma field_complete (fieldnames row : list string) c :
  c ∈ fieldnames → (length fieldnames ≤ length row)%nat →
  ∃ s, field fieldnames row c = Some (PStr s).
Proof.
  intros Hc Hlen. apply field_within.
  - now rewrite take_ge by lia.
  - rewrite drop_ge by lia. apply not_elem_of_nil.
Qed.

(** With a header without duplicates, the value under a column is the
    value of the row at the place of the column. *)
Lemma zip_fold_at (ks vs : list string) d (i : nat) k v :
  NoDup ks → ks !! i = Some k → vs !! i = Some v →
  foldl (λ d kv, <[Some kv.1 := PStr kv.2]> d) d (zip ks vs) !! Some k = Some (PStr v).
Proof.
  intros Hnd. revert vs d i. induction Hnd as [|k' ks Hk' Hnd IH]; intros vs d i Hk Hv.
  - now rewrite lookup_nil in Hk.
  - destruct vs as [|v' vs]; [now rewrite lookup_nil in Hv|]. cbn [zip zip_with foldl].
    destruct i as [|i]; cbn in Hk, Hv.
    + injection Hk as ->. injection Hv as ->.
      rewrite zip_fold_notin; [apply lookup_insert_eq|].
      rewrite fst_zip_take. intros Hin%elem_of_take. destruct Hin as (j & Hj & _).
      apply Hk'. eapply list_elem_of_lookup_2, Hj.
    + now apply (IH vs _ i).
Qed.

Lemma field_at (fieldnames row : list string) (i : nat) c v :
  NoDup fieldnames → fieldnames !! i = Some c → row !! i = Some v →
  field fieldnames row c = Some (PStr v).
Proof.
  intros Hnd Hc Hv. unfold field, make_row.
  assert (Hz : dict_zip fieldnames row !! Some c = Some (PStr v))
    by (unfold dict_zip; now apply (zip_fold_at _ _ _ i)).
  destruct (length fieldnames <? length row)%nat.
  - now rewrite lookup_insert_ne by discriminate.
  - destruct (length row <? length fieldnames)%nat; [|assumption].
    rewrite lookup_fill_restval, decide_False; [assumption|].
    intros Hin. apply list_elem_of_lookup in Hin as [j Hj]. rewrite lookup_drop in Hj.
    pose proof (NoDup_lookup _ _ _ _ Hnd Hc Hj) as Hij.
    apply lookup_lt_Some in Hv. lia.
Qed.

(** A blank record has no string under any column. *)
Lemma field_blank (fieldnames : list string) c s :
  field fieldnames [] c ≠ Some (PStr s).
Proof.
  destruct (decide (c ∈ fieldnames)) as [Hc|Hc].
  - rewrite field_beyond; [discriminate|]. now rewrite drop_0.
  - now rewrite field_missing.
Qed.

End Rows.

(** ** The themes *)

Lemma THEMES_dark : THEMES !! "dark" = Some {[ "bg" := "black"; "fg" := "white" ]}.
Proof. unfold THEMES. apply lookup_insert_eq. Qed.

Lemma THEMES_light : THEMES !! "light" = Some {[ "bg" := "#f2f2f2"; "fg" := "#111111" ]}.
Proof. unfold THEMES. rewrite lookup_insert_ne by discriminate. apply lookup_singleton_eq. Qed.

Lemma THEMES_lookup theme style :
  THEMES !! theme = Some style →
  theme = "dark" ∧ style = {[ "bg" := "black"; "fg" := "white" ]}
  ∨ theme = "light" ∧ style = {[ "bg" := "#f2f2f2"; "fg" := "#111111" ]}.
Proof.
  unfold THEMES. rewrite lookup_insert_Some, lookup_singleton_Some. intuition auto.
Qed.

Lemma theme_style_unregistered theme :
  THEMES !! theme = None → theme_style theme = theme_style "dark".
Proof.
  intros H. unfold theme_style, getitem. rewrite THEMES_dark. cbn. now rewrite H.
Qed.

(** Every theme name resolves to a style with both colours. *)
Lemma theme_style_colours theme :
  ∃ style bg fg,
    theme_style theme = Ok style ∧ style !! "bg" = Some bg ∧ style !! "fg" = Some fg.
Proof.
  unfold theme_style, getitem. rewrite THEMES_dark. cbn.
  destruct (THEMES !! theme) as [style|] eqn:H; cbn.
  - apply THEMES_lookup in H as [[_ ->]|[_ ->]]; eauto 10.
  - eauto 10.
Qed.

(** ** The renderer *)

Lemma next_figure_fresh w : next_figure w ∉ figures w.
Proof.
  intros Hin. apply elem_of_elements, max_list_elem_of_le in Hin.
  unfold next_figure in Hin. lia.
Qed.

Lemma marker_size_raises m e :
  marker_size m = Raise e → e = OverflowError "(34, 'Numerical result out of range')".
Proof.
  unfold marker_size, max_1. destruct (Float.gt_int (brightness m) 1); [|discriminate].
  cbn. unfold Float.pow2. destruct (brightness m) as [| | |s m0 e0]; cbn; try discriminate.
  destruct (binary_round_aux _ _ _ _ _ _); cbn; try discriminate. now intros [= <-].
Qed.

Lemma list_comprehension_raises {A B} (f : A → result B) (l : list A) e :
  list_comprehension f l = Raise e → ∃ x, x ∈ l ∧ f x = Raise e.
Proof.
  induction l as [|x l IH]; cbn [list_comprehension]; [discriminate|].
  destruct (f x) as [y|e'] eqn:Hx; cbn.
  - destruct (list_comprehension f l) as [ys|e'] eqn:Hl; cbn; [discriminate|].
    intros [= <-]. destruct IH as (x' & Hin & Hx'); [reflexivity|].
    exists x'. split; [now right|assumption].
  - intros [= <-]. exists x. split; [now left|assumption].
Qed.

Lemma draw_labels_ok style fg stars ax :
  style !! "fg" = Some fg → ∃ ax', draw_labels style stars ax = Ok ax'.
Proof.
  intros Hfg. revert ax. induction stars as [|s stars IH]; intros ax; cbn [draw_labels].
  - eauto.
  - unfold getitem. rewrite Hfg. cbn. apply IH.
Qed.

Lemma draw_chart_raises style bg fg stars labels ax e :
  style !! "bg" = Some bg → style !! "fg" = Some fg →
  draw_chart style stars labels ax = Raise e →
  e = OverflowError "(34, 'Numerical result out of range')".
Proof.
  intros Hbg Hfg. unfold draw_chart, getitem. rewrite Hbg, Hfg. cbn.
  destruct (list_comprehension _ stars) as [sizes|e'] eqn:Hs; cbn.
  - destruct labels.
    + match goal with
      | |- context [draw_labels style stars ?a] =>
          destruct (draw_labels_ok style fg stars a Hfg) as [ax' ->]
      end. cbn. discriminate.
    + cbn. discriminate.
  - intros [= <-]. apply list_comprehension_raises in Hs as (s & _ & Hs).
    eapply marker_size_raises, Hs.
Qed.

(** An empty catalogue gives a chart with one empty collection of markers
    and no label. *)
Lemma draw_chart_empty style bg fg labels :
  style !! "bg" = Some bg → style !! "fg" = Some fg →
  draw_chart style [] labels new_axes
  = Ok {| ax_facecolor := Some bg; ax_xaxis_inverted := true;
          ax_collections := [mkScatter [] [] [] fg f_0_8]; ax_texts := [];
          ax_xlabel := "Right Ascension (deg)"; ax_ylabel := "Declination (deg)";
          ax_title := "Night Sky"; ax_grid := Some (mkGrid fg f_0_2) |}.
Proof.
  intros Hbg Hfg. unfold draw_chart, getitem. rewrite Hbg, Hfg. now destruct labels.
Qed.

(** The image [plot_sky] writes. *)
Lemma plot_sky_steps stars theme labels output w style bg fg :
  theme_style theme = Ok style → style !! "bg" = Some bg → style !! "fg" = Some fg →
  plot_sky stars theme labels output w
  = match draw_chart style stars labels new_axes with
    | Raise e => (Raise e, drawing w)
    | Ok ax =>
        match write_error w output with
        | Some err => (Raise (os_exn err output), saving output w)
        | None =>
            (Ok (),
             set_figures (λ figs, figs ∖ {[next_figure w]})
               (set_images
                  (insert output
                     (mkImage (mkFigure (next_figure w) (10, 6)%Z bg) ax 150 "tight"))
                  (saving output w)))
        end
    end.
Proof.
  intros Hstyle Hbg Hfg.
  unfold plot_sky, lift, subplots, savefig, close, modify, mbind, M_bind.
  rewrite Hstyle. unfold getitem at 1. rewrite Hbg.
  destruct (draw_chart style stars labels new_axes) as [ax|e]; [|reflexivity].
  cbn [write_error set_log set_figures]. destruct (write_error w output); reflexivity.
Qed.

Lemma plot_sky_not_exit stars theme labels output w e w' :
  plot_sky stars theme labels output w = (Raise e, w') → is_exit e = false.
Proof.
  destruct (theme_style_colours theme) as (style & bg & fg & Hstyle & Hbg & Hfg).
  rewrite (plot_sky_steps _ _ _ _ _ _ _ _ Hstyle Hbg Hfg).
  destruct (draw_chart style stars labels new_axes) as [ax|e'] eqn:Hd.
  - destruct (write_error w output) as [[]|]; [| |discriminate]; now intros [= <- _].
  - intros [= <- _]. now rewrite (draw_chart_raises _ _ _ _ _ _ _ Hbg Hfg Hd).
Qed.

(** The registry of figures after [plot_sky]: as before when it returns,
    with the new figure still in it when it raises. *)
Lemma plot_sky_figures stars theme labels output w :
  match plot_sky stars theme labels output w with
  | (Ok _, w') => figures w' = figures w
  | (Raise _, w') => figures w' = {[next_figure w]} ∪ figures w
  end.
Proof.
  destruct (theme_style_colours theme) as (style & bg & fg & Hstyle & Hbg & Hfg).
  rewrite (plot_sky_steps _ _ _ _ _ _ _ _ Hstyle Hbg Hfg).
  destruct (draw_chart style stars labels new_axes) as [ax|e']; [|reflexivity].
  destruct (write_error w output); [reflexivity|]. cbn.
  pose proof (next_figure_fresh w) as Hfresh.
  apply set_eq. intros n. rewrite elem_of_difference, elem_of_union, elem_of_singleton.
  split; [intros [[?|?] ?]; [contradiction|assumption]|].
  intros Hn. split; [now right|]. intros ->. contradiction.
Qed.

(** ** The argument parser *)

Lemma choices_eq : choices = ["dark"; "light"].
Proof. vm_compute. reflexivity. Qed.

#[local] Opaque choices.

Lemma elem_of_choices value : value ∈ choices ↔ is_Some (THEMES !! value).
Proof.
  rewrite choices_eq, !elem_of_cons, elem_of_nil. split.
  - intros [->|[->|[]]]; [rewrite THEMES_dark|rewrite THEMES_light]; eauto.
  - intros [style [[-> _]|[-> _]]%THEMES_lookup]; auto.
Qed.

(** Induction on the tokens the way [consume] goes through them: one
    token, or an option and its argument, at a time. *)
Lemma token_list_ind (P : list token → Prop) :
  P [] →
  (∀ t rest, P rest → (∀ v rest', rest = TArg v :: rest' → P rest') → P (t :: rest)) →
  ∀ toks, P toks.
Proof.
  intros Hnil Hcons toks.
  enough (H : P toks ∧ ∀ v rest', toks = TArg v :: rest' → P rest') by apply H.
  induction toks as [|t rest [IH1 IH2]].
  - split; [assumption|discriminate].
  - split; [now apply Hcons|]. now intros v rest' [= _ <-].
Qed.

Lemma store_theme d value ns ns' :
  store d value ns = Parsed ns' → theme ns ∈ choices → theme ns' ∈ choices.
Proof.
  unfold store, argument_error. intros H Hns.
  destruct d; [discriminate| | |injection H as <-; exact Hns ..];
    [injection H as <-; exact Hns|].
  revert H. case_bool_decide as Hv; [|discriminate]. intros [= <-]. exact Hv.
Qed.

(** The theme of a parsed command line is one of the choices. *)
Lemma consume_theme toks :
  ∀ ns extras ns',
    theme ns ∈ choices → consume toks ns extras = Parsed ns' → theme ns' ∈ choices.
Proof.
  induction toks as [|t rest IH IH2] using token_list_ind; intros ns extras ns' Hns H.
  - cbn in H. destruct extras; [|discriminate]. now injection H as <-.
  - cbn [consume] in H.
    repeat case_match; try discriminate;
      match goal with
      | Hs : store _ _ _ = Parsed ?n, H : consume rest ?n _ = Parsed _ |- _ =>
          eapply IH; [eapply store_theme; eassumption|exact H]
      | Hs : store _ _ _ = Parsed ?n, H : consume _ ?n _ = Parsed _ |- _ =>
          eapply IH2; [reflexivity|eapply store_theme; eassumption|exact H]
      | H : consume rest _ _ = Parsed _ |- _ => eapply IH; eassumption
      end.
Qed.

Lemma pattern_not_help argv : arg_strings_pattern argv ≠ HelpExit.
Proof.
  induction argv as [|a argv IH]; cbn [arg_strings_pattern]; [discriminate|].
  destruct (String.eqb a "--"); [discriminate|].
  destruct (parse_optional a); destruct (arg_strings_pattern argv);
    try discriminate; contradiction.
Qed.

Lemma pattern_app pre rest tpre :
  "--" ∉ pre → arg_strings_pattern pre = Parsed tpre →
  arg_strings_pattern (pre ++ rest)
  = match arg_strings_pattern rest with
    | Parsed toks => Parsed (tpre ++ toks)
    | UsageError msg => UsageError msg
    | HelpExit => HelpExit
    end.
Proof.
  revert tpre. induction pre as [|a pre IH]; intros tpre Hdash H.
  - injection H as <-. cbn. now destruct (arg_strings_pattern rest).
  - apply not_elem_of_cons in Hdash as [Hne Hdash].
    rewrite <- app_comm_cons. cbn [arg_strings_pattern] in H |- *.
    destruct (String.eqb_spec a "--") as [->|_]; [contradiction|].
    destruct (parse_optional a); destruct (arg_strings_pattern pre) as [toks| |] eqn:Hpre;
      try discriminate; injection H as <-;
      rewrite (IH toks Hdash eq_refl); now destruct (arg_strings_pattern rest).
Qed.

Lemma pattern_head a argv v toks :
  arg_strings_pattern (a :: argv) = Parsed (TArg v :: toks) → v = a.
Proof.
  cbn [arg_strings_pattern]. destruct (String.eqb a "--"); [discriminate|].
  destruct (parse_optional a); destruct (arg_strings_pattern argv);
    try discriminate; now intros [= <- _].
Qed.

(** Arguments alone are never accepted. *)
Lemma consume_args_extras (l : list string) :
  ∀ ns extras, extras ≠ [] ∨ l ≠ [] → ∃ msg, consume (TArg <$> l) ns extras = UsageError msg.
Proof.
  induction l as [|a l IH]; intros ns extras H.
  - destruct H as [H|H]; [|contradiction]. destruct extras; [contradiction|].
    cbn. eauto.
  - rewrite fmap_cons. cbn [consume]. apply IH. left.
    intros [_ [=]]%app_nil.
Qed.

(** Before a stopper, a parse ends with a usage error, unless what comes
    before the stopper already asks for the help. *)
Lemma consume_before_stopper (X : list token) (t1 : list token) :
  stopper X →
  ∀ ns extras,
    (∃ msg, consume (t1 ++ X) ns extras = UsageError msg)
    ∨ (∀ Y, consume (t1 ++ Y) ns extras = HelpExit).
Proof.
  intros [Hstop Hhead].
  induction t1 as [|t rest IH IH2] using token_list_ind; intros ns extras.
  - left. apply Hstop.
  - rewrite <- !app_comm_cons.
    destruct t as [s| |[d|] arg_string option_string explicit_arg].
    + destruct (IH ns (extras ++ [s])) as [H|H]; [left|right; intros Y]; cbn [consume];
        [exact H|rewrite <- app_comm_cons; apply H].
    + destruct (IH ns (extras ++ ["--"])) as [H|H]; [left|right; intros Y]; cbn [consume];
        [exact H|rewrite <- app_comm_cons; apply H].
    + cbn [consume]. destruct (takes_argument d) eqn:Hd.
      * destruct explicit_arg as [value|].
        -- destruct (store d value ns) as [ns1|msg|] eqn:Hs.
           ++ destruct (IH ns1 extras) as [H|H]; [left; exact H|right; intros Y].
              rewrite <- app_comm_cons. cbn [consume]. rewrite Hd, Hs. apply H.
           ++ left. eauto.
           ++ right. intros Y. rewrite <- app_comm_cons. cbn [consume]. now rewrite Hd, Hs.
        -- destruct rest as [|[value| |] rest'].
           ++ left. rewrite app_nil_l.
              destruct X as [|[v| |] X']; try contradiction; eexists; reflexivity.
           ++ rewrite <- app_comm_cons.
              destruct (store d value ns) as [ns1|msg|] eqn:Hs.
              ** destruct (IH2 value rest' eq_refl ns1 extras) as [H|H];
                   [left; exact H|right; intros Y].
                 rewrite <- !app_comm_cons. cbn [consume]. rewrite Hd, Hs. apply H.
              ** left. eauto.
              ** right. intros Y. rewrite <- !app_comm_cons. cbn [consume].
                 now rewrite Hd, Hs.
           ++ left. rewrite <- app_comm_cons. eexists. reflexivity.
           ++ left. rewrite <- app_comm_cons. eexists. reflexivity.
      * destruct explicit_arg as [e|].
        -- destruct (negb (String.prefix "--" option_string) && negb (String.eqb e ""))
             eqn:Hshort.
           ++ destruct (short_flags e) as [u|msg|] eqn:Hflags.
              ** right. intros Y. rewrite <- app_comm_cons. cbn [consume].
                 now rewrite Hd, Hshort, Hflags.
              ** left. eauto.
              ** right. intros Y. rewrite <- app_comm_cons. cbn [consume].
                 now rewrite Hd, Hshort, Hflags.
           ++ left. eexists. reflexivity.
        -- destruct (store d "" ns) as [ns1|msg|] eqn:Hs.
           ++ destruct (IH ns1 extras) as [H|H]; [left; exact H|right; intros Y].
              rewrite <- app_comm_cons. cbn [consume]. rewrite Hd, Hs. apply H.
           ++ left. eauto.
           ++ right. intros Y. rewrite <- app_comm_cons. cbn [consume]. now rewrite Hd, Hs.
    + destruct (IH ns (extras ++ [arg_string])) as [H|H]; [left|right; intros Y];
        cbn [consume]; [exact H|rewrite <- app_comm_cons; apply H].
Qed.

Lemma pattern_app_error pre rest msg :
  "--" ∉ pre → arg_strings_pattern pre = UsageError msg →
  arg_strings_pattern (pre ++ rest) = UsageError msg.
Proof.
  induction pre as [|a pre IH]; intros Hdash H; [discriminate|].
  apply not_elem_of_cons in Hdash as [Hne Hdash].
  rewrite <- app_comm_cons. cbn [arg_strings_pattern] in H |- *.
  destruct (String.eqb_spec a "--") as [->|_]; [contradiction|].
  destruct (parse_optional a); try exact H;
    destruct (arg_strings_pattern pre) as [toks|msg'|] eqn:Hpre; try discriminate;
    injection H as <-; now rewrite (IH Hdash eq_refl).
Qed.

(** The option [--theme] followed by a value that is not registered stops
    every parse. *)
Lemma theme_stopper value toks :
  THEMES !! value = None →
  (∀ v toks', toks = TArg v :: toks' → v = value) →
  stopper (TOpt (Some Theme) "--theme" "--theme" None :: toks).
Proof.
  intros Hvalue Hhead. split; [|exact I]. intros ns extras. cbn [consume takes_argument].
  destruct toks as [|[v| |] toks']; try (eexists; reflexivity).
  rewrite (Hhead v toks' eq_refl). unfold store.
  rewrite bool_decide_false; [eexists; reflexivity|].
  rewrite elem_of_choices, Hvalue. now intros [? [=]].
Qed.

Lemma dashdash_stopper (l : list string) : stopper (TDashDash :: (TArg <$> l)).
Proof.
  split; [|exact I]. intros ns extras. cbn [consume]. apply consume_args_extras.
  left. intros [_ [=]]%app_nil.
Qed.

(** A command line that gives [--theme] an unregistered value ends with a
    usage error, unless the arguments before it already ask for the help. *)
Lemma parse_unregistered_theme pre value post :
  THEMES !! value = None →
  (∃ msg, parse_known_args (pre ++ "--theme" :: value :: post) = UsageError msg)
  ∨ (parse_known_args (pre ++ "--theme" :: value :: post) = HelpExit
     ∧ parse_known_args pre = HelpExit).
Proof.
  intros Hvalue. unfold parse_known_args.
  destruct (decide ("--" ∈ pre)) as [Hin|Hdash].
  - apply list_elem_of_split_l in Hin as (p1 & p2 & -> & Hdash).
    rewrite <- app_assoc, <- app_comm_cons.
    destruct (arg_strings_pattern p1) as [tp1|msg|] eqn:Hp1.
    + rewrite !(pattern_app _ _ _ Hdash Hp1). cbn [arg_strings_pattern String.eqb Ascii.eqb Bool.eqb].
      destruct (consume_before_stopper _ tp1
                  (dashdash_stopper (p2 ++ "--theme" :: value :: post))
                  default_namespace []) as [H|H]; [now left|right].
      now rewrite !H.
    + left. exists msg. now rewrite (pattern_app_error _ _ _ Hdash Hp1).
    + now apply pattern_not_help in Hp1.
  - destruct (arg_strings_pattern pre) as [tpre|msg|] eqn:Hpre.
    + rewrite (pattern_app _ _ _ Hdash Hpre).
      change (arg_strings_pattern ("--theme" :: value :: post))
        with (match arg_strings_pattern (value :: post) with
              | Parsed toks => Parsed (TOpt (Some Theme) "--theme" "--theme" None :: toks)
              | UsageError msg => UsageError msg
              | HelpExit => HelpExit
              end).
      destruct (arg_strings_pattern (value :: post)) as [toks|msg|] eqn:Hrest.
      * assert (Hstop : stopper (TOpt (Some Theme) "--theme" "--theme" None :: toks)).
        { apply (theme_stopper value); [assumption|]. intros v toks' ->.
          now apply pattern_head in Hrest. }
        destruct (consume_before_stopper _ tpre Hstop default_namespace []) as [H|H];
          [now left|right].
        split; [apply H|]. rewrite <- (app_nil_r tpre). apply H.
      * left. eauto.
      * now apply pattern_not_help in Hrest.
    + left. exists msg. now rewrite (pattern_app_error _ _ _ Hdash Hpre).
    + now apply pattern_not_help in Hpre.
Qed.

(** ** The loader *)

Section Properties.
Variable float_of_str : string → option float.

Local Abbreviation py_float := (py_float float_of_str).
Local Abbreviation star_of_row := (star_of_row float_of_str).
Local Abbreviation read_rows := (read_rows float_of_str).
Local Abbreviation read_stars := (read_stars float_of_str).
Local Abbreviation parseable := (parseable float_of_str).
Local Abbreviation loadable := (loadable float_of_str).
Local Abbreviation star_from := (star_from float_of_str).

Lemma read_stars_open w path records :
  files w !! path = Some records →
  read_stars path w = (read_rows (DictReader records) [], opened path w).
Proof.
  intros Hf. unfold read_stars, with_open, path_open, finally, lift, mbind, M_bind.
  cbn [files set_log]. rewrite Hf. destruct w; reflexivity.
Qed.

Lemma read_stars_no_file w path :
  files w !! path = None →
  read_stars path w = (Raise (FileNotFoundError path), opened path w).
Proof.
  intros Hf. unfold read_stars, with_open, path_open, finally, lift, mbind, M_bind.
  cbn [files set_log]. now rewrite Hf.
Qed.

Lemma read_rows_ok reader stars acc :
  Forall2 (λ row star, star_of_row row = Ok star) reader stars →
  read_rows reader acc = Ok (acc ++ stars).
Proof.
  intros H. revert acc. induction H as [|row star reader stars Hrow _ IH]; intros acc.
  - now rewrite app_nil_r.
  - cbn [read_rows]. rewrite Hrow. cbn. rewrite IH, <- app_assoc. reflexivity.
Qed.

Lemma read_rows_first_failure before row after acc e :
  Forall (λ row, ∃ star, star_of_row row = Ok star) before →
  star_of_row row = Raise e →
  read_rows (before ++ row :: after) acc = Raise e.
Proof.
  intros H Hrow. revert acc. induction H as [|row' before [star Hstar] _ IH]; intros acc.
  - cbn [app read_rows]. now rewrite Hrow.
  - cbn [app read_rows]. rewrite Hstar. cbn. apply IH.
Qed.

Lemma read_rows_failure reader row acc e :
  row ∈ reader → star_of_row row = Raise e → ∃ e', read_rows reader acc = Raise e'.
Proof.
  intros Hin Hrow. revert acc. induction reader as [|row' reader IH]; intros acc.
  - now apply elem_of_nil in Hin.
  - cbn [read_rows]. destruct (star_of_row row') as [star|e'] eqn:Hrow'; cbn; [|eauto].
    apply elem_of_cons in Hin as [->|Hin]; [congruence|]. now apply IH.
Qed.

Lemma DictReader_split fieldnames before r after :
  r ≠ [] →
  DictReader (fieldnames :: before ++ r :: after)
  = (make_row fieldnames <$> filter (λ r, r ≠ []) before)
    ++ make_row fieldnames r :: (make_row fieldnames <$> filter (λ r, r ≠ []) after).
Proof.
  intros Hr. cbn [DictReader].
  now rewrite filter_app, filter_cons_True, fmap_app, fmap_cons by assumption.
Qed.

Lemma row_getitem_field fieldnames r c :
  row_getitem (make_row fieldnames r) c
  = match field fieldnames r c with Some v => Ok v | None => Raise (KeyError c) end.
Proof. reflexivity. Qed.

Lemma loadable_nonblank fieldnames r : loadable fieldnames r → r ≠ [].
Proof.
  intros H ->. destruct (H "ra_deg") as (s & x & Hs & _).
  - now left.
  - now apply field_blank in Hs.
Qed.

Lemma loadable_star fieldnames r :
  "name" ∈ fieldnames → loadable fieldnames r →
  ∃ star, star_of_row (make_row fieldnames r) = Ok star ∧ star_from fieldnames r star.
Proof.
  intros Hname Hr.
  destruct (field_present fieldnames r "name" Hname) as [n Hn].
  destruct (Hr "ra_deg") as (s1 & x1 & Hs1 & Hx1); [now left|].
  destruct (Hr "dec_deg") as (s2 & x2 & Hs2 & Hx2); [right; now left|].
  destruct (Hr "mag") as (s3 & x3 & Hs3 & Hx3); [right; right; now left|].
  exists (mkStar n x1 x2 x3). split.
  - unfold star_of_row. rewrite !row_getitem_field, Hn, Hs1, Hs2, Hs3. cbn.
    rewrite Hx1. cbn. rewrite Hx2. cbn. rewrite Hx3. reflexivity.
  - unfold star_from. cbn. eauto 10.
Qed.

Lemma loadable_rows fieldnames rows :
  "name" ∈ fieldnames → (∀ r, r ∈ rows → loadable fieldnames r) →
  filter (λ r, r ≠ []) rows = rows
  ∧ ∃ stars,
      Forall2 (λ r star, star_of_row (make_row fieldnames r) = Ok star
                         ∧ star_from fieldnames r star) rows stars.
Proof.
  intros Hname. induction rows as [|r rows IH]; intros Hrows.
  - split; [reflexivity|]. exists []. constructor.
  - destruct IH as [Hf (stars & Hstars)]; [intros; apply Hrows; now right|].
    assert (Hr : loadable fieldnames r) by (apply Hrows; now left).
    split.
    + rewrite filter_cons_True by now apply loadable_nonblank in Hr. now rewrite Hf.
    + destruct (loadable_star fieldnames r Hname Hr) as (star & Hstar).
      exists (star :: stars). now constructor.
Qed.

Lemma loadable_reader fieldnames rows :
  "name" ∈ fieldnames → (∀ r, r ∈ data_rows rows → loadable fieldnames r) →
  Forall (λ row, ∃ star, star_of_row row = Ok star)
         (make_row fieldnames <$> filter (λ r, r ≠ []) rows).
Proof.
  intros Hname Hrows. fold (data_rows rows).
  destruct (loadable_rows fieldnames (data_rows rows) Hname Hrows) as [_ (stars & Hstars)].
  apply Forall_fmap. clear Hrows.
  induction Hstars as [|r star rows' stars' [Hs _] _ IH]; constructor; cbn; eauto.
Qed.

Lemma numeric_columns_inv c :
  c ∈ numeric_columns → c = "ra_deg" ∨ c = "dec_deg" ∨ c = "mag".
Proof.
  unfold numeric_columns. rewrite !elem_of_cons, elem_of_nil. tauto.
Qed.

Ltac step_row :=
  match goal with
  | H : field ?f ?r ?c = _ |- context [field ?f ?r ?c] => rewrite H; cbn
  | H : float_of_str ?s = _ |- context [float_of_str ?s] => rewrite H; cbn
  | H : ?p ?v = Raise _ |- context [?p ?v] => rewrite H; cbn
  | |- context [match field ?f ?r ?c with _ => _ end] =>
      destruct (field f r c) eqn:?; cbn
  | |- context [py_float ?v] => destruct (py_float v) eqn:?; cbn
  end.

Lemma star_of_row_numeric_failure fieldnames r c v e :
  c ∈ numeric_columns → field fieldnames r c = Some v → py_float v = Raise e →
  (∃ e', star_of_row (make_row fieldnames r) = Raise e')
  ∧ ("name" ∈ fieldnames →
     (∀ c', c' ∈ columns_before c → parseable fieldnames r c') →
     star_of_row (make_row fieldnames r) = Raise e).
Proof.
  intros Hc Hv He. unfold star_of_row. rewrite !row_getitem_field. split.
  - apply numeric_columns_inv in Hc as [-> | [-> | ->]]; repeat step_row; eauto.
  - intros Hname Hbefore. destruct (field_present _ r _ Hname) as [n Hn].
    apply numeric_columns_inv in Hc as [-> | [-> | ->]].
    + repeat step_row. reflexivity.
    + destruct (Hbefore "ra_deg") as (s1 & x1 & Hs1 & Hx1); [now left|].
      repeat step_row. reflexivity.
    + destruct (Hbefore "ra_deg") as (s1 & x1 & Hs1 & Hx1); [now left|].
      destruct (Hbefore "dec_deg") as (s2 & x2 & Hs2 & Hx2); [right; now left|].
      repeat step_row. reflexivity.
Qed.

Lemma required_columns_inv c :
  c ∈ required_columns → c = "name" ∨ c = "ra_deg" ∨ c = "dec_deg" ∨ c = "mag".
Proof.
  unfold required_columns. rewrite !elem_of_cons, elem_of_nil. tauto.
Qed.

Lemma star_of_row_missing_fails fieldnames r c :
  c ∈ required_columns → c ∉ fieldnames →
  ∃ e, star_of_row (make_row fieldnames r) = Raise e.
Proof.
  intros Hc Hout. pose proof (field_missing fieldnames r c Hout) as Hf.
  unfold star_of_row. rewrite !row_getitem_field.
  apply required_columns_inv in Hc as [-> | [-> | [-> | ->]]]; repeat step_row; eauto.
Qed.

(** With a column missing, and the numeric fields that are there being
    floats, the error is the [KeyError] of a missing column. *)
Lemma star_of_row_missing_KeyError fieldnames r c e :
  c ∈ required_columns → c ∉ fieldnames →
  (∀ c', c' ∈ numeric_columns → c' ∈ fieldnames → parseable fieldnames r c') →
  star_of_row (make_row fieldnames r) = Raise e →
  ∃ c', c' ∈ required_columns ∧ (c' ∉ fieldnames) ∧ e = KeyError c'.
Proof.
  intros Hc Hout Hnum. unfold star_of_row. rewrite !row_getitem_field.
  assert (Hcol : ∀ c', c' ∈ numeric_columns →
            (field fieldnames r c' = None ∧ c' ∉ fieldnames)
            ∨ ∃ s x, field fieldnames r c' = Some (PStr s) ∧ float_of_str s = Some x).
  { intros c' Hc'. destruct (decide (c' ∈ fieldnames)) as [Hin|Hnin].
    - right. now apply Hnum.
    - left. split; [now apply field_missing|assumption]. }
  destruct (decide ("name" ∈ fieldnames)) as [Hname|Hname].
  2: { rewrite (field_missing _ r _ Hname). cbn. intros [= <-].
       exists "name". repeat split; [now left|assumption]. }
  destruct (field_present _ r _ Hname) as [n ->]. cbn.
  destruct (Hcol "ra_deg") as [[-> Hnin]|(s1 & x1 & -> & Hx1)]; [now left| |].
  { cbn. intros [= <-]. exists "ra_deg". repeat split; [right; now left|assumption]. }
  cbn. rewrite Hx1. cbn.
  destruct (Hcol "dec_deg") as [[-> Hnin]|(s2 & x2 & -> & Hx2)]; [right; now left| |].
  { cbn. intros [= <-]. exists "dec_deg".
    repeat split; [right; right; now left|assumption]. }
  cbn. rewrite Hx2. cbn.
  destruct (Hcol "mag") as [[-> Hnin]|(s3 & x3 & -> & Hx3)]; [right; right; now left| |].
  { cbn. intros [= <-]. exists "mag".
    repeat split; [right; right; right; now left|assumption]. }
  cbn. rewrite Hx3. cbn. discriminate.
Qed.

(** The loader raises no [SystemExit]. *)
Lemma star_of_row_not_exit row e :
  star_of_row row = Raise e → is_exit e = false.
Proof.
  unfold star_of_row, row_getitem.
  repeat (match goal with
          | |- context [row !! Some ?c] => destruct (row !! Some c) as [[| |]|]; cbn
          | |- context [float_of_str ?s] => destruct (float_of_str s); cbn
          end); intros [= <-]; reflexivity.
Qed.

Lemma read_rows_not_exit reader acc e :
  read_rows reader acc = Raise e → is_exit e = false.
Proof.
  revert acc. induction reader as [|row reader IH]; intros acc; cbn [read_rows].
  - discriminate.
  - destruct (star_of_row row) as [star|e'] eqn:Hrow; cbn.
    + apply IH.
    + intros [= <-]. eapply star_of_row_not_exit, Hrow.
Qed.

Lemma read_stars_world path w : (read_stars path w).2 = opened path w.
Proof.
  destruct (files w !! path) as [records|] eqn:Hf.
  - now rewrite (read_stars_open _ _ _ Hf).
  - now rewrite (read_stars_no_file _ _ Hf).
Qed.

Lemma read_stars_not_exit path w e w' :
  read_stars path w = (Raise e, w') → is_exit e = false.
Proof.
  destruct (files w !! path) as [records|] eqn:Hf.
  - rewrite (read_stars_open _ _ _ Hf). intros [= H _]. eapply read_rows_not_exit, H.
  - rewrite (read_stars_no_file _ _ Hf). now intros [= <- _].
Qed.


(** ** The process *)

Local Abbreviation run := (run float_of_str).

Lemma run_usage_error argv msg w :
  parse_known_args argv = UsageError msg →
  run argv w
  = (2%Z, set_stderr (λ l, l ++ format_usage ++ ["night_sky.py: error: " +:+ msg]) w).
Proof.
  intros H. unfold run, main, parse_args, mbind, M_bind. now rewrite H.
Qed.

Lemma run_help argv w :
  parse_known_args argv = HelpExit →
  run argv w = (0%Z, set_stdout (λ l, l ++ format_help) w).
Proof.
  intros H. unfold run, main, parse_args, mbind, M_bind. now rewrite H.
Qed.

(** After the command line is parsed the loader runs, then the renderer;
    the exception of either is printed and gives the status 1. *)
Lemma run_parsed argv ns w :
  parse_known_args argv = Parsed ns →
  run argv w
  = match read_stars (data ns) w with
    | (Raise e, w1) => (1%Z, set_stderr (λ l, l ++ traceback e) w1)
    | (Ok stars, w1) =>
        match plot_sky stars (theme ns) (show_labels ns) (output ns) w1 with
        | (Raise e, w2) => (1%Z, set_stderr (λ l, l ++ traceback e) w2)
        | (Ok _, w2) => (0%Z, w2)
        end
    end.
Proof.
  intros H. unfold run, main, parse_args, mbind, M_bind. rewrite H.
  destruct (read_stars (data ns) w) as [[stars|e] w1] eqn:Hr.
  - destruct (plot_sky stars _ _ _ w1) as [[u|e] w2] eqn:Hp; [reflexivity|].
    apply plot_sky_not_exit in Hp. destruct e; try reflexivity; discriminate.
  - apply read_stars_not_exit in Hr. destruct e; try reflexivity; discriminate.
Qed.

Lemma run_load_failure argv ns w e w1 :
  parse_known_args argv = Parsed ns →
  read_stars (data ns) w = (Raise e, w1) →
  run argv w = (1%Z, set_stderr (λ l, l ++ traceback e) (opened (data ns) w)).
Proof.
  intros H Hr. rewrite (run_parsed _ _ _ H).
  pose proof (read_stars_world (data ns) w) as Hw. rewrite Hr in Hw |- *.
  cbn in Hw. now subst.
Qed.

(** What [plot_sky] leaves of the streams and of the log. *)
Lemma plot_sky_world stars theme labels output w :
  let w' := (plot_sky stars theme labels output w).2 in
  stderr w' = stderr w ∧ stdout w' = stdout w ∧ files w' = files w
  ∧ (log w' = log w ∨ log w' = log w ++ [EvSavefig output]).
Proof.
  destruct (theme_style_colours theme) as (style & bg & fg & Hstyle & Hbg & Hfg).
  cbn zeta. rewrite (plot_sky_steps _ _ _ _ _ _ _ _ Hstyle Hbg Hfg).
  destruct (draw_chart style stars labels new_axes) as [ax|e'].
  - destruct (write_error w output); cbn; auto.
  - cbn. auto.
Qed.

(** ** The claims about the loader *)


(** C2, as the code has it: when a row has, under [ra_deg], [dec_deg] or
    [mag], a text that is not the writing of a float, [read_stars] raises and
    returns no list, and a run stops with the status 1 before anything is
    drawn.  The exception is the [ValueError] of that text (the message
    carries the text, neither the row nor the column) when nothing fails
    before it: the header has the column [name], the rows before are
    loadable, and the numeric columns converted before this one hold floats
    in this row. *)
Theorem read_stars_bad_float (w : World) (path : string) (fieldnames : list string)
    (before : list (list string)) (r : list string) (after : list (list string))
    (c s : string) :
  files w !! path = Some (fieldnames :: before ++ r :: after) →
  c ∈ numeric_columns →
  field fieldnames r c = Some (PStr s) →
  float_of_str s = None →
  (∃ e, read_stars path w = (Raise e, opened path w)
        ∧ ∀ argv ns, parse_known_args argv = Parsed ns → data ns = path →
            run argv w = (1%Z, set_stderr (λ l, l ++ traceback e) (opened path w)))
  ∧ ("name" ∈ fieldnames →
     (∀ r', r' ∈ data_rows before → loadable fieldnames r') →
     (∀ c', c' ∈ columns_before c → parseable fieldnames r c') →
     read_stars path w
     = (Raise (ValueError ("could not convert string to float: " +:+ repr s)),
        opened path w)).
Proof.
  intros Hfile Hc Hfield Hs.
  assert (Hr : r ≠ []) by (intros ->; now apply field_blank in Hfield).
  assert (Hpy : py_float (PStr s)
                = Raise (ValueError ("could not convert string to float: " +:+ repr s)))
    by (cbn; now rewrite Hs).
  destruct (star_of_row_numeric_failure fieldnames r c _ _ Hc Hfield Hpy)
    as [[e' He'] Hfirst].
  rewrite (read_stars_open _ _ _ Hfile), (DictReader_split _ _ _ _ Hr). split.
  - destruct (read_rows_failure
                ((make_row fieldnames <$> filter (λ r, r ≠ []) before)
                 ++ make_row fieldnames r
                 :: (make_row fieldnames <$> filter (λ r, r ≠ []) after))
                (make_row fieldnames r) [] e') as [e He]; [|assumption|].
    { apply elem_of_app. right. now left. }
    exists e. rewrite He. split; [reflexivity|].
    intros argv ns Hargv <-. eapply run_load_failure; [eassumption|].
    rewrite (read_stars_open _ _ _ Hfile), (DictReader_split _ _ _ _ Hr), He. reflexivity.
  - intros Hname Hbefore Hcols. f_equal.
    apply read_rows_first_failure; [now apply loadable_reader|now apply Hfirst].
Qed.

(** C10, as the code has it: when a row that is not blank has no value for
    a numeric column (the column lies beyond the values of the row),
    [read_stars] raises and returns no list.  The exception is the
    [TypeError] of [float(None)] when nothing fails before it: the header has
    the column [name], the data rows before are loadable, and the numeric
    columns converted before this one hold floats in this row. *)
Theorem read_stars_short_row (w : World) (path : string) (fieldnames : list string)
    (before : list (list string)) (r : list string) (after : list (list string))
    (c : string) :
  files w !! path = Some (fieldnames :: before ++ r :: after) →
  r ≠ [] →
  c ∈ numeric_columns →
  c ∈ drop (length r) fieldnames →
  (∃ e, read_stars path w = (Raise e, opened path w))
  ∧ ("name" ∈ fieldnames →
     (∀ r', r' ∈ data_rows before → loadable fieldnames r') →
     (∀ c', c' ∈ columns_before c → parseable fieldnames r c') →
     read_stars path w
     = (Raise (TypeError
                 "float() argument must be a string or a real number, not 'NoneType'"),
        opened path w)).
Proof.
  intros Hfile Hr Hc Hbeyond.
  pose proof (field_beyond fieldnames r c Hbeyond) as Hfield.
  destruct (star_of_row_numeric_failure fieldnames r c PNone _ Hc Hfield eq_refl)
    as [[e' He'] Hfirst].
  rewrite (read_stars_open _ _ _ Hfile), (DictReader_split _ _ _ _ Hr). split.
  - destruct (read_rows_failure
                ((make_row fieldnames <$> filter (λ r, r ≠ []) before)
                 ++ make_row fieldnames r
                 :: (make_row fieldnames <$> filter (λ r, r ≠ []) after))
                (make_row fieldnames r) [] e') as [e He]; [|assumption|].
    { apply elem_of_app. right. now left. }
    exists e. now rewrite He.
  - intros Hname Hbefore Hcols. f_equal.
    apply read_rows_first_failure; [now apply loadable_reader|now apply Hfirst].
Qed.

(** C3, as the code has it: there is no [SchemaError] and the header is
    not checked.  When a required column is missing from the header, a file
    without data rows loads as the empty list; otherwise [read_stars] raises
    on the first data row and returns no list, and a run stops with the
    status 1 before anything is drawn.  The exception is the [KeyError] of a
    missing column when the numeric fields the first data row does have are
    floats. *)
Theorem read_stars_missing_column (w : World) (path : string)
    (fieldnames : list string) (rows : list (list string)) (c : string) :
  files w !! path = Some (fieldnames :: rows) →
  c ∈ required_columns →
  c ∉ fieldnames →
  match data_rows rows with
  | [] => read_stars path w = (Ok [], opened path w)
  | r :: _ =>
      ∃ e, read_stars path w = (Raise e, opened path w)
           ∧ (∀ argv ns, parse_known_args argv = Parsed ns → data ns = path →
                run argv w = (1%Z, set_stderr (λ l, l ++ traceback e) (opened path w)))
           ∧ ((∀ c', c' ∈ numeric_columns → c' ∈ fieldnames → parseable fieldnames r c') →
              ∃ c', c' ∈ required_columns ∧ (c' ∉ fieldnames) ∧ e = KeyError c')
  end.
Proof.
  intros Hfile Hc Hout. rewrite (read_stars_open _ _ _ Hfile). cbn [DictReader].
  unfold data_rows.
  destruct (filter (λ r, r ≠ []) rows) as [|r rows'] eqn:Hrows; [reflexivity|].
  destruct (star_of_row_missing_fails fieldnames r c Hc Hout) as [e He].
  exists e. cbn [fmap list_fmap read_rows]. rewrite He. split; [reflexivity|]. split.
  - intros argv ns Hargv <-. eapply run_load_failure; [eassumption|].
    rewrite (read_stars_open _ _ _ Hfile). cbn [DictReader]. rewrite Hrows.
    cbn [fmap list_fmap read_rows]. rewrite He. reflexivity.
  - intros Hnum. eapply star_of_row_missing_KeyError; eassumption.
Qed.

(** ** The claims about the themes and the renderer *)

Lemma theme_colours_dark : theme_colours "dark" = Ok ("black", "white").
Proof. vm_compute. reflexivity. Qed.

Lemma theme_colours_light : theme_colours "light" = Ok ("#f2f2f2", "#111111").
Proof. vm_compute. reflexivity. Qed.

(** C5: the theme ["light"] has other colours than ["dark"], and a theme
    name that is not in [THEMES] resolves, without an error, to the style of
    ["dark"], so that the whole rendering is that of ["dark"]. *)
Theorem theme_resolution (theme : string) :
  THEMES !! theme = None →
  theme_colours "dark" = Ok ("black", "white")
  ∧ theme_colours "light" = Ok ("#f2f2f2", "#111111")
  ∧ theme_colours "light" ≠ theme_colours "dark"
  ∧ theme_style theme = Ok {[ "bg" := "black"; "fg" := "white" ]}
  ∧ theme_style theme = theme_style "dark"
  ∧ theme_colours theme = theme_colours "dark"
  ∧ ∀ stars labels output w,
      plot_sky stars theme labels output w = plot_sky stars "dark" labels output w.
Proof.
  intros H. pose proof (theme_style_unregistered theme H) as Hstyle.
  split; [apply theme_colours_dark|].
  split; [apply theme_colours_light|].
  split; [rewrite theme_colours_dark, theme_colours_light; discriminate|].
  split; [rewrite Hstyle; unfold theme_style, getitem; now rewrite THEMES_dark|].
  split; [exact Hstyle|].
  split; [unfold theme_colours; now rewrite Hstyle|].
  intros stars labels output w. unfold plot_sky. now rewrite Hstyle.
Qed.

(** C8: for the empty list of stars [plot_sky] returns normally and writes
    the image of an empty chart at the output path, provided the file can be
    written; the figure is closed again. *)
Theorem plot_sky_empty (theme : string) (labels : bool) (output : string) (w : World) :
  write_error w output = None →
  ∃ bg fg w',
    theme_colours theme = Ok (bg, fg)
    ∧ plot_sky [] theme labels output w = (Ok (), w')
    ∧ images w' !! output
      = Some (mkImage (mkFigure (next_figure w) (10, 6)%Z bg) (empty_chart bg fg)
                150 "tight")
    ∧ figures w' = figures w
    ∧ log w' = log w ++ [EvSavefig output]
    ∧ stderr w' = stderr w.
Proof.
  intros Hwrite.
  destruct (theme_style_colours theme) as (style & bg & fg & Hstyle & Hbg & Hfg).
  pose proof (plot_sky_figures [] theme labels output w) as Hfigs.
  rewrite (plot_sky_steps _ _ _ _ _ _ _ _ Hstyle Hbg Hfg) in Hfigs |- *.
  rewrite (draw_chart_empty _ _ _ _ Hbg Hfg), Hwrite in Hfigs |- *.
  eexists bg, fg, _. split; [|split; [reflexivity|]].
  - unfold theme_colours, getitem. now rewrite Hstyle; cbn; rewrite Hbg, Hfg.
  - split; [apply lookup_insert_eq|]. split; [exact Hfigs|]. split; reflexivity.
Qed.

(** ** The claims about the command line *)

(** The theme of every command line that parses is a registered one. *)
Lemma parsed_theme_registered argv ns :
  parse_known_args argv = Parsed ns → is_Some (THEMES !! theme ns).
Proof.
  unfold parse_known_args. destruct (arg_strings_pattern argv) as [toks| |]; try discriminate.
  intros H. apply elem_of_choices. eapply consume_theme; [|exact H].
  apply elem_of_choices. cbn. rewrite THEMES_dark. eauto.
Qed.



End Properties.

(** ** Concrete runs *)

Ltac elem_cases H :=
  repeat (let E := fresh "E" in
          apply elem_of_cons in H as [E|H]; [first [discriminate E|subst]|]);
  try (now apply elem_of_nil in H).

Ltac elem_solve := cbv delta [header header_with_notes header_without_mag
  required_columns numeric_columns]; rewrite !elem_of_cons; auto 10.

Ltac parse_field :=
  eexists _, _; split; [vm_compute; reflexivity|]; vm_compute; reflexivity.

Lemma header_has_required c : c ∈ required_columns → c ∈ header.
Proof. intros H. exact H. Qed.

Lemma vega_loadable : loadable float_of_int_str header vega.
Proof. intros c Hc. elem_cases Hc; parse_field. Defined.

Lemma sirius_loadable : loadable float_of_int_str header sirius.
Proof. intros c Hc. elem_cases Hc; parse_field. Defined.


(** C2 at a catalogue whose second row has [abc] for right ascension. *)
Lemma read_stars_bad_float_witness :
  read_stars float_of_int_str "data/stars.csv"
    (csv_world [header; vega; not_a_number; sirius])
  = (Raise (ValueError "could not convert string to float: 'abc'"),
     opened "data/stars.csv" (csv_world [header; vega; not_a_number; sirius])).
Proof.
  refine (proj2 (read_stars_bad_float float_of_int_str
                   (csv_world [header; vega; not_a_number; sirius]) "data/stars.csv"
                   header [vega] not_a_number [sirius] "ra_deg" "abc" _ _ _ _) _ _ _).
  - vm_compute. reflexivity.
  - now left.
  - vm_compute. reflexivity.
  - vm_compute. reflexivity.
  - now left.
  - intros r Hr. vm_compute in Hr. elem_cases Hr. exact vega_loadable.
  - intros c Hc. elem_cases Hc.
Defined.

(** C2, counterexample: the catalogue has a row with [abc] for right
    ascension, and the error is the [TypeError] of the short row before
    it, not a [ValueError]. *)
Lemma bad_float_after_short_row :
  let w := csv_world [header; short_row; not_a_number] in
  field header not_a_number "ra_deg" = Some (PStr "abc")
  ∧ float_of_int_str "abc" = None
  ∧ read_stars float_of_int_str "data/stars.csv" w
    = (Raise (TypeError
                "float() argument must be a string or a real number, not 'NoneType'"),
       opened "data/stars.csv" w)
  ∧ ¬ ∃ msg w', read_stars float_of_int_str "data/stars.csv" w = (Raise (ValueError msg), w').
Proof.
  cbn zeta.
  assert (H : read_stars float_of_int_str "data/stars.csv"
                (csv_world [header; short_row; not_a_number])
              = (Raise (TypeError
                   "float() argument must be a string or a real number, not 'NoneType'"),
                 opened "data/stars.csv" (csv_world [header; short_row; not_a_number])))
    by (vm_compute; reflexivity).
  split; [vm_compute; reflexivity|]. split; [vm_compute; reflexivity|].
  split; [exact H|]. intros (msg & w' & H'). rewrite H in H'. discriminate.
Qed.

(** C10 at a catalogue whose only row stops after the right ascension. *)
Lemma read_stars_short_row_witness :
  read_stars float_of_int_str "data/stars.csv" (csv_world [header; short_row])
  = (Raise (TypeError
              "float() argument must be a string or a real number, not 'NoneType'"),
     opened "data/stars.csv" (csv_world [header; short_row])).
Proof.
  refine (proj2 (read_stars_short_row float_of_int_str
                   (csv_world [header; short_row]) "data/stars.csv"
                   header [] short_row [] "dec_deg" _ _ _ _) _ _ _).
  - vm_compute. reflexivity.
  - discriminate.
  - right. now left.
  - vm_compute. now left.
  - now left.
  - intros r Hr. vm_compute in Hr. elem_cases Hr.
  - intros c Hc. elem_cases Hc. parse_field.
Defined.

(** C10, counterexample: the row has fewer values than the header has
    columns, and it loads: the column it has no value for is not one
    [read_stars] reads. *)
Lemma short_row_loads :
  let w := csv_world [header_with_notes; vega] in
  (length vega < length header_with_notes)%nat
  ∧ (∀ c, c ∈ required_columns → c ∈ header_with_notes)
  ∧ ∃ star, read_stars float_of_int_str "data/stars.csv" w
            = (Ok [star], opened "data/stars.csv" w).
Proof.
  cbn zeta. split; [vm_compute; lia|]. split.
  - intros c Hc. elem_cases Hc; elem_solve.
  - eexists. vm_compute. reflexivity.
Qed.

(** C3 at a catalogue without the column [mag]. *)
Lemma read_stars_missing_column_witness :
  read_stars float_of_int_str "data/stars.csv"
    (csv_world [header_without_mag; vega_without_mag])
  = (Raise (KeyError "mag"),
     opened "data/stars.csv" (csv_world [header_without_mag; vega_without_mag])).
Proof.
  pose proof (read_stars_missing_column float_of_int_str
                (csv_world [header_without_mag; vega_without_mag]) "data/stars.csv"
                header_without_mag [vega_without_mag] "mag") as H.
  destruct H as (e & He & _ & Hkey).
  - vm_compute. reflexivity.
  - right. right. right. now left.
  - intros Hin. elem_cases Hin.
  - rewrite He. f_equal. f_equal.
    destruct Hkey as (c & Hc & Hout & ->).
    + intros c Hc Hin. elem_cases Hc; try parse_field. elem_cases Hin.
    + elem_cases Hc; try reflexivity; exfalso; apply Hout; elem_solve.
Defined.

(** C3, counterexample: without data rows the missing column goes
    unnoticed, the empty list is returned and the chart is drawn; with a data
    row the exception is a [KeyError]. *)
Lemma missing_column_without_rows :
  let w := csv_world [header_without_mag] in
("mag" ∉ header_without_mag)
  ∧ read_stars float_of_int_str "data/stars.csv" w = (Ok [], opened "data/stars.csv" w)
  ∧ (run float_of_int_str [] w).1 = 0%Z
  ∧ log (run float_of_int_str [] w).2 = [EvOpen "data/stars.csv"; EvSavefig "night_sky.png"]
  ∧ (read_stars float_of_int_str "data/stars.csv"
       (csv_world [header_without_mag; vega_without_mag])).1
    = Raise (KeyError "mag").
Proof.
  cbn zeta. split; [intros Hin; elem_cases Hin|].
  repeat split; vm_compute; reflexivity.
Qed.

(** C5 at the theme name [sepia]. *)
Lemma theme_resolution_witness :
  THEMES !! "sepia" = None
  ∧ theme_style "sepia" = Ok {[ "bg" := "black"; "fg" := "white" ]}
  ∧ theme_colours "light" ≠ theme_colours "dark".
Proof.
  assert (H : THEMES !! "sepia" = None) by (vm_compute; reflexivity).
  destruct (theme_resolution "sepia" H) as (_ & _ & Hne & Hstyle & _).
  split; [exact H|]. split; [exact Hstyle|exact Hne].
Defined.

(** C8 at the light theme, with labels. *)
Lemma plot_sky_empty_witness :
  ∃ w', plot_sky [] "light" true "night_sky.png" (csv_world [header]) = (Ok (), w')
        ∧ figures w' = figures (csv_world [header]).
Proof.
  destruct (plot_sky_empty "light" true "night_sky.png" (csv_world [header]))
    as (bg & fg & w' & _ & Hplot & _ & Hfigs & _).
  - reflexivity.
  - exists w'. split; [exact Hplot|exact Hfigs].
Defined.

(** C9: when the image cannot be written, [savefig] raises and
    [plt.close(fig)] is not reached: the figure stays in the registry of
    pyplot. *)
Theorem plot_sky_save_failure_leaks_figure :
  ∃ w',
    plot_sky [] "dark" false "charts/night_sky.png" no_directory_world
    = (Raise (FileNotFoundError "charts/night_sky.png"), w')
    ∧ figures no_directory_world = ∅
    ∧ figures w' = {[1%nat]}
    ∧ figures w' ≠ figures no_directory_world.
Proof.
  eexists. split; [vm_compute; reflexivity|]. split; [reflexivity|].
  split; [vm_compute; reflexivity|]. cbn. intros H.
  assert (Hin : 1%nat ∈ (∅ : gset nat)) by (rewrite <- H; vm_compute; auto).
  now apply not_elem_of_empty in Hin.
Qed.



(** ** More about the loader *)

Section Loader.
Variable float_of_str : string → option float.

Local Abbreviation py_float := (py_float float_of_str).
Local Abbreviation star_of_row := (star_of_row float_of_str).
Local Abbreviation read_rows := (read_rows float_of_str).
Local Abbreviation read_stars := (read_stars float_of_str).
Local Abbreviation star_from := (star_from float_of_str).
Local Abbreviation star_at := (star_at float_of_str).
Local Abbreviation run := (run float_of_str).

(** A star that was built from a row holds the fields of the row. *)
Lemma star_of_row_inv fieldnames r star :
  star_of_row (make_row fieldnames r) = Ok star → star_from fieldnames r star.
Proof.
  unfold star_of_row, star_from. rewrite !row_getitem_field.
  destruct (field fieldnames r "name") as [n|]; cbn; [|discriminate].
  destruct (field fieldnames r "ra_deg") as [[|s1|]|]; cbn; try discriminate.
  destruct (float_of_str s1) as [x1|] eqn:H1; cbn; [|discriminate].
  destruct (field fieldnames r "dec_deg") as [[|s2|]|]; cbn; try discriminate.
  destruct (float_of_str s2) as [x2|] eqn:H2; cbn; [|discriminate].
  destruct (field fieldnames r "mag") as [[|s3|]|]; cbn; try discriminate.
  destruct (float_of_str s3) as [x3|] eqn:H3; cbn; [|discriminate].
  intros [= <-]. cbn. eauto 10.
Qed.

(** The loop returns only when every row gave a star, and then it returns
    these stars in the order of the rows. *)
Lemma read_rows_inv reader acc out :
  read_rows reader acc = Ok out →
  ∃ stars, out = acc ++ stars
           ∧ Forall2 (λ row star, star_of_row row = Ok star) reader stars.
Proof.
  revert acc. induction reader as [|row reader IH]; intros acc; cbn [read_rows].
  - intros [= <-]. exists []. split; [now rewrite app_nil_r|constructor].
  - destruct (star_of_row row) as [star|e] eqn:Hrow; cbn; [|discriminate].
    intros (stars & -> & Hstars)%IH. exists (star :: stars).
    split; [now rewrite <- app_assoc|now constructor].
Qed.

Lemma star_at_star fieldnames r i_name i_ra i_dec i_mag star :
  NoDup fieldnames →
  fieldnames !! i_name = Some "name" → fieldnames !! i_ra = Some "ra_deg" →
  fieldnames !! i_dec = Some "dec_deg" → fieldnames !! i_mag = Some "mag" →
  star_at i_name i_ra i_dec i_mag r = Some star →
  star_of_row (make_row fieldnames r) = Ok star.
Proof.
  intros Hnd Hname Hra Hdec Hmag. unfold star_at.
  destruct (r !! i_name) as [n|] eqn:Hn; cbn; [|discriminate].
  destruct (r !! i_ra) as [s1|] eqn:Hs1; cbn; [|discriminate].
  destruct (float_of_str s1) as [x1|] eqn:Hx1; cbn; [|discriminate].
  destruct (r !! i_dec) as [s2|] eqn:Hs2; cbn; [|discriminate].
  destruct (float_of_str s2) as [x2|] eqn:Hx2; cbn; [|discriminate].
  destruct (r !! i_mag) as [s3|] eqn:Hs3; cbn; [|discriminate].
  destruct (float_of_str s3) as [x3|] eqn:Hx3; cbn; [|discriminate].
  intros [= <-]. unfold star_of_row. rewrite !row_getitem_field.
  rewrite (field_at _ _ _ _ _ Hnd Hname Hn), (field_at _ _ _ _ _ Hnd Hra Hs1),
    (field_at _ _ _ _ _ Hnd Hdec Hs2), (field_at _ _ _ _ _ Hnd Hmag Hs3).
  cbn. rewrite Hx1. cbn. rewrite Hx2. cbn. rewrite Hx3. reflexivity.
Qed.


(** X2: whether it returns or raises, [read_stars] leaves no file open
    (the [with] block closes it), attempts the one [open] of its path, and
    touches neither the files, the images, the figures nor the standard
    streams. *)
Theorem read_stars_frame (path : string) (w : World) :
  let w' := (read_stars path w).2 in
  open_files w' = open_files w
  ∧ log w' = log w ++ [EvOpen path]
  ∧ files w' = files w ∧ images w' = images w ∧ figures w' = figures w
  ∧ stdout w' = stdout w ∧ stderr w' = stderr w.
Proof. cbn zeta. rewrite read_stars_world. repeat split. Qed.

(** X3: a file without data rows (an empty file, a header alone, a
    header followed by blank lines) loads as the empty list, whatever its
    header is. *)
Theorem read_stars_no_rows (path : string) (w : World) (records : list (list string)) :
  files w !! path = Some records →
  data_rows (tail records) = [] →
  read_stars path w = (Ok [], opened path w).
Proof.
  intros Hfile Hrows. rewrite (read_stars_open float_of_str _ _ _ Hfile).
  destruct records as [|fieldnames rows]; [reflexivity|].
  cbn [tail] in Hrows. unfold data_rows in Hrows. cbn [DictReader]. now rewrite Hrows.
Qed.

(** X4: the columns are found by their names, wherever they stand: with
    a header without duplicates that has [name], [ra_deg], [dec_deg] and
    [mag] at some places, [read_stars] returns, for every data row, the star
    made of the values at these places (the name as it is, the three others
    converted by [float]), in the order of the rows. *)
Theorem read_stars_by_position (w : World) (path : string) (fieldnames : list string)
    (rows : list (list string)) (i_name i_ra i_dec i_mag : nat) (stars : list Star) :
  files w !! path = Some (fieldnames :: rows) →
  NoDup fieldnames →
  fieldnames !! i_name = Some "name" → fieldnames !! i_ra = Some "ra_deg" →
  fieldnames !! i_dec = Some "dec_deg" → fieldnames !! i_mag = Some "mag" →
  Forall2 (λ r star, star_at i_name i_ra i_dec i_mag r = Some star)
    (data_rows rows) stars →
  read_stars path w = (Ok stars, opened path w).
Proof.
  intros Hfile Hnd Hname Hra Hdec Hmag Hstars.
  rewrite (read_stars_open float_of_str _ _ _ Hfile). cbn [DictReader].
  fold (data_rows rows). rewrite (read_rows_ok float_of_str _ stars []); [reflexivity|].
  apply Forall2_fmap_l. eapply Forall2_impl; [exact Hstars|].
  intros r star Hr. cbn. eapply star_at_star; eassumption.
Qed.

(** X5: no row is skipped: when [read_stars] returns a list, the list has
    one star for every data row of the file, in the order of the rows, and
    each star holds the fields of its row. *)
Theorem read_stars_all_rows (w w' : World) (path : string) (fieldnames : list string)
    (rows : list (list string)) (stars : list Star) :
  files w !! path = Some (fieldnames :: rows) →
  read_stars path w = (Ok stars, w') →
  length stars = length (data_rows rows)
  ∧ Forall2 (star_from fieldnames) (data_rows rows) stars.
Proof.
  intros Hfile. rewrite (read_stars_open float_of_str _ _ _ Hfile). cbn [DictReader].
  fold (data_rows rows). intros [= (stars' & -> & Hstars)%read_rows_inv _].
  rewrite app_nil_l. apply Forall2_fmap_l in Hstars.
  split; [symmetry; eapply Forall2_length, Hstars|].
  eapply Forall2_impl; [exact Hstars|]. intros r star Hr. now apply star_of_row_inv.
Qed.

(** Under a column, a row holds a field of the file or [None], never a
    list. *)
Lemma field_cases fieldnames r c :
  (field fieldnames r c = None ∧ (c ∉ fieldnames))
  ∨ field fieldnames r c = Some PNone
  ∨ ∃ s, field fieldnames r c = Some (PStr s).
Proof.
  destruct (decide (c ∈ fieldnames)) as [Hc|Hc].
  - destruct (decide (c ∈ drop (length r) fieldnames)) as [Hd|Hd].
    + right. left. now apply field_beyond.
    + right. right. apply field_within; [|assumption].
      rewrite <- (take_drop (length r) fieldnames) in Hc.
      apply elem_of_app in Hc as [?|?]; [assumption|contradiction].
  - left. split; [now apply field_missing|assumption].
Qed.

Local Abbreviation column_error := (column_error float_of_str).

Lemma star_of_row_raises fieldnames r e :
  star_of_row (make_row fieldnames r) = Raise e →
  (("name" ∉ fieldnames) ∧ e = KeyError "name")
  ∨ ∃ c, c ∈ numeric_columns ∧ column_error fieldnames r c e.
Proof.
  unfold star_of_row, column_error. rewrite !row_getitem_field.
  destruct (field_cases fieldnames r "name") as [[-> Hn]|[->|[n ->]]]; cbn.
  { intros [= <-]. now left. }
  all: intros H; right; revert H.
  all: destruct (field_cases fieldnames r "ra_deg") as [[H1 Hn1]|[H1|[s1 H1]]];
    rewrite H1; cbn;
    [intros [= <-]; exists "ra_deg"; split; [now left|auto]
    |intros [= <-]; exists "ra_deg"; split; [now left|auto]|];
    (destruct (float_of_str s1) as [x1|] eqn:Hx1; cbn;
     [|intros [= <-]; exists "ra_deg"; split; [now left|eauto 10]]);
    destruct (field_cases fieldnames r "dec_deg") as [[H2 Hn2]|[H2|[s2 H2]]];
    rewrite H2; cbn;
    [intros [= <-]; exists "dec_deg"; split; [right; now left|auto]
    |intros [= <-]; exists "dec_deg"; split; [right; now left|auto]|];
    (destruct (float_of_str s2) as [x2|] eqn:Hx2; cbn;
     [|intros [= <-]; exists "dec_deg"; split; [right; now left|eauto 10]]);
    destruct (field_cases fieldnames r "mag") as [[H3 Hn3]|[H3|[s3 H3]]];
    rewrite H3; cbn;
    [intros [= <-]; exists "mag"; split; [right; right; now left|auto]
    |intros [= <-]; exists "mag"; split; [right; right; now left|auto]|];
    (destruct (float_of_str s3) as [x3|] eqn:Hx3; cbn;
     [discriminate|intros [= <-]; exists "mag"; split; [right; right; now left|eauto 10]]).
Qed.

Lemma read_rows_raises reader acc e :
  read_rows reader acc = Raise e → ∃ row, row ∈ reader ∧ star_of_row row = Raise e.
Proof.
  revert acc. induction reader as [|row reader IH]; intros acc; cbn [read_rows];
    [discriminate|].
  destruct (star_of_row row) as [star|e'] eqn:Hrow; cbn.
  - intros (row' & Hin & Hrow')%IH. exists row'. split; [now right|assumption].
  - intros [= <-]. exists row. split; [now left|assumption].
Qed.


End Loader.

(** ** More about the renderer *)

Lemma list_comprehension_ok {A B} (f : A → result B) (l : list A) :
  (∀ x, x ∈ l → ∃ y, f x = Ok y) → ∃ ys, list_comprehension f l = Ok ys.
Proof.
  induction l as [|x l IH]; intros H; cbn [list_comprehension]; [eauto|].
  destruct (H x) as [y ->]; [now left|]. cbn.
  destruct IH as [ys ->]; [intros; apply H; now right|]. cbn. eauto.
Qed.

Lemma list_comprehension_fails {A B} (f : A → result B) (l : list A) x e :
  x ∈ l → f x = Raise e → ∃ e', list_comprehension f l = Raise e'.
Proof.
  intros Hin Hx. induction l as [|x' l IH]; [now apply elem_of_nil in Hin|].
  cbn [list_comprehension]. destruct (f x') as [y|e'] eqn:Hx'; cbn; [|eauto].
  apply elem_of_cons in Hin as [->|Hin]; [congruence|].
  destruct (IH Hin) as [e' ->]. cbn. eauto.
Qed.

Lemma draw_labels_texts style fg stars ax :
  style !! "fg" = Some fg →
  draw_labels style stars ax
  = Ok {| ax_facecolor := ax_facecolor ax; ax_xaxis_inverted := ax_xaxis_inverted ax;
          ax_collections := ax_collections ax;
          ax_texts := ax_texts ax ++ (star_label fg <$> stars);
          ax_xlabel := ax_xlabel ax; ax_ylabel := ax_ylabel ax; ax_title := ax_title ax;
          ax_grid := ax_grid ax |}.
Proof.
  intros Hfg. revert ax. induction stars as [|s stars IH]; intros ax; cbn [draw_labels].
  - rewrite fmap_nil, app_nil_r. now destruct ax.
  - unfold getitem. rewrite Hfg. cbn. rewrite IH. cbn. now rewrite <- app_assoc.
Qed.

Lemma draw_chart_ok style bg fg stars sizes labels :
  style !! "bg" = Some bg → style !! "fg" = Some fg →
  list_comprehension (λ s, marker_size (mag s)) stars = Ok sizes →
  draw_chart style stars labels new_axes = Ok (chart bg fg stars sizes labels).
Proof.
  intros Hbg Hfg Hsizes. unfold draw_chart, getitem. rewrite Hbg, Hfg, Hsizes. cbn.
  destruct labels; [|reflexivity]. rewrite (draw_labels_texts _ fg) by assumption.
  reflexivity.
Qed.

Lemma theme_colours_style theme style bg fg :
  theme_style theme = Ok style → style !! "bg" = Some bg → style !! "fg" = Some fg →
  theme_colours theme = Ok (bg, fg).
Proof.
  intros Hstyle Hbg Hfg. unfold theme_colours, getitem. rewrite Hstyle. cbn.
  now rewrite Hbg, Hfg.
Qed.

(** The world after [plot_sky] has drawn the stars and written the image. *)
Lemma plot_sky_ok (stars : list Star) (theme : string) (labels : bool)
    (output : string) (w : World) :
  (∀ s, s ∈ stars → ∃ v, marker_size (mag s) = Ok v) →
  write_error w output = None →
  ∃ bg fg sizes w',
    theme_colours theme = Ok (bg, fg)
    ∧ Forall2 (λ s v, marker_size (mag s) = Ok v ∧ num_ge_1 v = true) stars sizes
    ∧ plot_sky stars theme labels output w = (Ok (), w')
    ∧ w' = set_figures (λ figs, figs ∖ {[next_figure w]})
             (set_images
                (insert output
                   (mkImage (mkFigure (next_figure w) (10, 6)%Z bg)
                      (chart bg fg stars sizes labels) 150 "tight"))
                (saving output w))
    ∧ figures w' = figures w.
Proof.
  intros Hsizes Hwrite.
  destruct (theme_style_colours theme) as (style & bg & fg & Hstyle & Hbg & Hfg).
  destruct (list_comprehension_ok (λ s, marker_size (mag s)) stars Hsizes) as [sizes Hs].
  pose proof (plot_sky_figures stars theme labels output w) as Hfigs.
  rewrite (plot_sky_steps _ _ _ _ _ _ _ _ Hstyle Hbg Hfg) in Hfigs |- *.
  rewrite (draw_chart_ok _ _ _ _ _ _ Hbg Hfg Hs), Hwrite in Hfigs |- *.
  eexists bg, fg, sizes, _.
  split; [eapply theme_colours_style; eassumption|].
  split; [now apply marker_sizes_ge_1|].
  split; [reflexivity|]. split; [reflexivity|exact Hfigs].
Qed.


(** X8: one star whose marker size is out of range stops the whole
    chart: [plot_sky] raises [OverflowError] before [savefig] is reached, no
    image is written, and the new figure stays open. *)
Theorem plot_sky_overflow (stars : list Star) (theme : string) (labels : bool)
    (output : string) (w : World) (s : Star) (e : exn) :
  s ∈ stars → marker_size (mag s) = Raise e →
  ∃ w',
    plot_sky stars theme labels output w
    = (Raise (OverflowError "(34, 'Numerical result out of range')"), w')
    ∧ images w' = images w
    ∧ log w' = log w
    ∧ figures w' = {[next_figure w]} ∪ figures w.
Proof.
  intros Hin Hs.
  destruct (theme_style_colours theme) as (style & bg & fg & Hstyle & Hbg & Hfg).
  destruct (list_comprehension_fails (λ s, marker_size (mag s)) stars s e Hin Hs)
    as [e' He'].
  assert (Hd : draw_chart style stars labels new_axes
               = Raise (OverflowError "(34, 'Numerical result out of range')")).
  { destruct (draw_chart style stars labels new_axes) as [ax|e2] eqn:Hd.
    - exfalso. revert Hd. unfold draw_chart, getitem. rewrite Hbg, He'. discriminate.
    - f_equal. eapply draw_chart_raises; eassumption. }
  rewrite (plot_sky_steps _ _ _ _ _ _ _ _ Hstyle Hbg Hfg), Hd.
  eexists. split; [reflexivity|]. repeat split.
Qed.


(** ** More about the command line *)

Lemma plain_positional s :
  plain s → String.eqb s "--" = false ∧ parse_optional s = Positional.
Proof.
  unfold plain. destruct s as [|c s]; [now split|]. cbn [String.prefix].
  destruct (ascii_dec "-" c) as [<-|Hne]; [now destruct s|]. intros _.
  assert (Hc : Ascii.eqb c "-" = false) by (apply Ascii.eqb_neq; congruence).
  split.
  - cbn. now rewrite Hc.
  - cbn. now rewrite Hc.
Qed.

Lemma pattern_cons_arg s rest :
  plain s →
  arg_strings_pattern (s :: rest)
  = match arg_strings_pattern rest with
    | Parsed toks => Parsed (TArg s :: toks)
    | UsageError msg => UsageError msg
    | HelpExit => HelpExit
    end.
Proof.
  intros [Hdash Hpos]%plain_positional. cbn [arg_strings_pattern].
  now rewrite Hdash, Hpos.
Qed.

(** The tokens of a command line of options in their full form. *)
Lemma pattern_given gs rest :
  Forall given_ok gs →
  arg_strings_pattern (command_line gs ++ rest)
  = match arg_strings_pattern rest with
    | Parsed toks => Parsed ((gs ≫= given_tokens) ++ toks)
    | UsageError msg => UsageError msg
    | HelpExit => HelpExit
    end.
Proof.
  unfold command_line. induction 1 as [|g gs Hg _ IH].
  - cbn. now destruct (arg_strings_pattern rest).
  - rewrite !bind_cons, <- !app_assoc.
    destruct g as [v|v| |v]; cbn [given_strings given_tokens app given_ok] in *.
    + change (arg_strings_pattern ("--data" :: v :: (gs ≫= given_strings) ++ rest))
        with (match arg_strings_pattern (v :: (gs ≫= given_strings) ++ rest) with
              | Parsed toks => Parsed (TOpt (Some Data) "--data" "--data" None :: toks)
              | UsageError msg => UsageError msg
              | HelpExit => HelpExit
              end).
      rewrite (pattern_cons_arg _ _ Hg), IH. now destruct (arg_strings_pattern rest).
    + change (arg_strings_pattern ("--theme" :: v :: (gs ≫= given_strings) ++ rest))
        with (match arg_strings_pattern (v :: (gs ≫= given_strings) ++ rest) with
              | Parsed toks => Parsed (TOpt (Some Theme) "--theme" "--theme" None :: toks)
              | UsageError msg => UsageError msg
              | HelpExit => HelpExit
              end).
      rewrite (pattern_cons_arg _ _ (proj1 Hg)), IH. now destruct (arg_strings_pattern rest).
    + change (arg_strings_pattern ("--show-labels" :: (gs ≫= given_strings) ++ rest))
        with (match arg_strings_pattern ((gs ≫= given_strings) ++ rest) with
              | Parsed toks =>
                  Parsed (TOpt (Some ShowLabels) "--show-labels" "--show-labels" None :: toks)
              | UsageError msg => UsageError msg
              | HelpExit => HelpExit
              end).
      rewrite IH. now destruct (arg_strings_pattern rest).
    + change (arg_strings_pattern ("--output" :: v :: (gs ≫= given_strings) ++ rest))
        with (match arg_strings_pattern (v :: (gs ≫= given_strings) ++ rest) with
              | Parsed toks => Parsed (TOpt (Some Output) "--output" "--output" None :: toks)
              | UsageError msg => UsageError msg
              | HelpExit => HelpExit
              end).
      rewrite (pattern_cons_arg _ _ Hg), IH. now destruct (arg_strings_pattern rest).
Qed.

(** Each option stores its value, and the parse goes on. *)
Lemma consume_given gs rest :
  Forall given_ok gs →
  ∀ ns extras,
    consume ((gs ≫= given_tokens) ++ rest) ns extras
    = consume rest (foldl set_given ns gs) extras.
Proof.
  induction 1 as [|g gs Hg _ IH]; intros ns extras; [reflexivity|].
  rewrite bind_cons, <- app_assoc.
  destruct g as [v|v| |v]; cbn [given_tokens app consume takes_argument store foldl set_given];
    try apply IH.
  destruct Hg as [_ Hv]. rewrite bool_decide_true by now apply elem_of_choices.
  apply IH.
Qed.

Lemma consume_extras toks :
  ∀ ns extras ns', extras ≠ [] → consume toks ns extras ≠ Parsed ns'.
Proof.
  assert (Hsnoc : ∀ (extras : list string) s, extras ++ [s] ≠ [])
    by (intros extras s [_ [=]]%app_nil).
  induction toks as [|t rest IH IH2] using token_list_ind; intros ns extras ns' Hex.
  - cbn. destruct extras; [contradiction|discriminate].
  - cbn [consume]. repeat case_match; try discriminate;
      first [now apply IH | now eapply IH2 | idtac].
Qed.

Lemma prefix_empty s : String.prefix "" s = true.
Proof. now destruct s. Qed.

(** The long options begin with different letters: an abbreviation that
    goes beyond the two dashes stands for one of them at most. *)
Lemma long_option_tuples c q (e : option string) :
  (length (omap (λ '(option_string, act),
                   if String.prefix (String "-" (String "-" (String c q))) option_string
                   then Some (act, option_string, e) else None)
                option_string_actions) ≤ 1)%nat.
Proof.
  unfold option_string_actions. cbn.
  repeat match goal with
         | |- context [ascii_dec c ?x] => destruct (ascii_dec c x) as [->|?]; cbn
         end;
  try match goal with
      | |- context [if ?b then Some _ else None] => destruct b; cbn
      end; lia.
Qed.

Lemma option_tuples_short s :
  s ≠ "--" → String.prefix "--=" s = false → String.prefix "-" s = true →
  (2 ≤ String.length s)%nat →
  (length (get_option_tuples s) ≤ 1)%nat.
Proof.
  intros Hne Heq Hdash Hlen.
  destruct s as [|c1 [|c2 s]]; [cbn in Hlen; lia ..|].
  cbn [String.prefix] in Hdash. destruct (ascii_dec "-" c1) as [<-|]; [|discriminate].
  clear Hdash Hlen. unfold get_option_tuples.
  destruct (ascii_dec "-" c2) as [<-|Hc2].
  - destruct s as [|c3 s]; [contradiction|].
    assert (Hc3 : Ascii.eqb c3 "=" = false).
    { apply Ascii.eqb_neq. intros ->. cbn in Heq. now rewrite prefix_empty in Heq. }
    replace (String.prefix "--" (String "-" (String "-" (String c3 s)))) with true
      by reflexivity.
    cbn [split_eq]. replace (Ascii.eqb "-" "=") with false by reflexivity. rewrite Hc3.
    destruct (split_eq s) as [[a b]|]; apply long_option_tuples.
  - replace (String.prefix "--" (String "-" (String c2 s))) with false.
    2: { cbn [String.prefix]. destruct (ascii_dec "-" "-"); [|contradiction].
         now destruct (ascii_dec "-" c2). }
    cbn zeta.
    replace (substring 0 2 (String "-" (String c2 s))) with (String "-" (String c2 ""))
      by now destruct s.
    assert (Hc2' : Ascii.eqb "-" c2 = false) by now apply Ascii.eqb_neq.
    unfold option_string_actions.
    cbn [omap list_omap String.eqb String.prefix].
    replace (Ascii.eqb "-" "-") with true by reflexivity. rewrite Hc2'.
    destruct (ascii_dec "-" "-"); [|contradiction].
    destruct (ascii_dec c2 "-") as [->|_]; [contradiction|].
    repeat match goal with
           | |- context [if ?b then Some ?x else ?y] => destruct b; cbn
           end; lia.
Qed.

(** Only an argument that begins with [--=] is an ambiguous abbreviation. *)
Lemma not_ambiguous s matches :
  s ≠ "--" → String.prefix "--=" s = false → parse_optional s ≠ Ambiguous matches.
Proof.
  intros Hne Heq. unfold parse_optional.
  destruct s as [|c s]; [discriminate|].
  destruct (Ascii.eqb_spec c "-") as [->|_]; cbn [negb]; [|discriminate].
  destruct (assoc _ option_string_actions); [discriminate|].
  destruct (String.length (String "-" s) =? 1)%nat eqn:Hlen; [discriminate|].
  apply Nat.eqb_neq in Hlen.
  assert (Hshort : (length (get_option_tuples (String "-" s)) ≤ 1)%nat).
  { apply option_tuples_short; try assumption.
    - cbn [String.prefix]. destruct (ascii_dec "-" "-"); [apply prefix_empty|contradiction].
    - cbn in Hlen |- *. lia. }
  destruct (split_eq (String "-" s)) as [[o e]|];
    [destruct (assoc o option_string_actions); [discriminate|]|];
    destruct (get_option_tuples (String "-" s)) as [|[[a o'] e'] [|t l]];
    try discriminate; try (cbn in Hshort; lia);
    repeat case_match; discriminate.
Qed.

Lemma pattern_total (argv : list string) :
  Forall (λ s, String.prefix "--=" s = false) argv →
  ∃ toks, arg_strings_pattern argv = Parsed toks.
Proof.
  induction 1 as [|s argv Hs _ [toks IH]]; [now exists []|].
  cbn [arg_strings_pattern]. destruct (String.eqb_spec s "--") as [->|Hne]; [eauto|].
  rewrite IH. pose proof (λ ms, not_ambiguous s ms Hne Hs) as Hamb.
  destruct (parse_optional s); eauto. now destruct (Hamb matches).
Qed.

(** What follows tokens that begin with an option does not matter to the
    tokens before them. *)
Lemma consume_congr (X X' : list token) :
  (∀ ns extras, consume X ns extras = consume X' ns extras) →
  option_first X → option_first X' →
  ∀ t1 ns extras, consume (t1 ++ X) ns extras = consume (t1 ++ X') ns extras.
Proof.
  intros Heq HX HX'.
  induction t1 as [|t rest IH IH2] using token_list_ind; intros ns extras; [apply Heq|].
  rewrite <- !app_comm_cons.
  destruct t as [s| |[d|] arg_string option_string explicit_arg]; cbn [consume];
    try apply IH.
  destruct (takes_argument d).
  - destruct explicit_arg as [value|].
    + destruct (store d value ns); [apply IH|reflexivity ..].
    + destruct rest as [|[value| |] rest'].
      * rewrite !app_nil_l.
        destruct X as [|[] ?], X' as [|[] ?]; try contradiction; reflexivity.
      * rewrite <- !app_comm_cons.
        destruct (store d value ns); [now apply (IH2 value)|reflexivity ..].
      * reflexivity.
      * reflexivity.
  - destruct explicit_arg as [e|]; [reflexivity|].
    destruct (store d "" ns); [apply IH|reflexivity ..].
Qed.

Lemma prefix_inv p c s :
  String.prefix p (String c s) = true →
  p = "" ∨ ∃ p', p = String c p' ∧ String.prefix p' s = true.
Proof.
  destruct p as [|a p]; [now left|]. cbn [String.prefix].
  destruct (ascii_dec a c) as [->|]; [|discriminate]. right. eauto.
Qed.

Lemma prefix_nil_inv p : String.prefix p "" = true → p = "".
Proof. now destruct p. Qed.

Ltac prefixes H :=
  repeat (first [ apply prefix_nil_inv in H; subst
                | let p := fresh "p" in
                  apply prefix_inv in H as [->|(p & -> & H)] ]).

(** An abbreviation of three characters or more is read as the option. *)
Lemma parse_optional_abbreviation p o act :
  (o, act) ∈ option_string_actions → String.prefix p o = true →
  (3 ≤ String.length p)%nat →
  p ≠ "--" ∧ parse_optional p = Optional (Some act) o None.
Proof.
  unfold option_string_actions. intros Ho Hp Hlen.
  repeat (apply elem_of_cons in Ho as [[= -> ->]|Ho]; [prefixes Hp|]);
    try (now apply elem_of_nil in Ho); try (cbn in Hlen; lia); now split.
Qed.

Lemma pattern_cons_option a o act e rest :
  String.eqb a "--" = false → parse_optional a = Optional act o e →
  arg_strings_pattern (a :: rest)
  = match arg_strings_pattern rest with
    | Parsed toks => Parsed (TOpt act a o e :: toks)
    | UsageError msg => UsageError msg
    | HelpExit => HelpExit
    end.
Proof. intros Hdash Hopt. cbn [arg_strings_pattern]. now rewrite Hdash, Hopt. Qed.

(** The parse of a command line, from the tokens of what follows a
    beginning without [--]. *)
Lemma parse_app pre rest :
  "--" ∉ pre →
  parse_known_args (pre ++ rest)
  = match arg_strings_pattern pre with
    | Parsed tpre =>
        match arg_strings_pattern rest with
        | Parsed toks => consume (tpre ++ toks) default_namespace []
        | UsageError msg => UsageError msg
        | HelpExit => HelpExit
        end
    | UsageError msg => UsageError msg
    | HelpExit => HelpExit
    end.
Proof.
  intros Hdash. unfold parse_known_args.
  destruct (arg_strings_pattern pre) as [tpre|msg|] eqn:Hpre.
  - rewrite (pattern_app _ _ _ Hdash Hpre). now destruct (arg_strings_pattern rest).
  - now rewrite (pattern_app_error _ _ _ Hdash Hpre).
  - now apply pattern_not_help in Hpre.
Qed.

Section CommandLine.
Variable float_of_str : string → option float.
Local Abbreviation run := (run float_of_str).

(** X10: a command line made of the options [--data D], [--theme T],
    [--show-labels] and [--output O], in any order and any number of times,
    where the values do not begin with a dash and every theme is registered,
    is accepted; each field of the result holds the value of the last
    occurrence of its option, or its default ([data/stars.csv], [dark], no
    labels, [night_sky.png]) when the option is not given. *)
Theorem parse_given (gs : list given) :
  Forall given_ok gs →
  parse_known_args (command_line gs) = Parsed (foldl set_given default_namespace gs).
Proof.
  intros Hgs. unfold parse_known_args.
  rewrite <- (app_nil_r (command_line gs)), (pattern_given _ _ Hgs).
  cbn [arg_strings_pattern]. now rewrite (consume_given _ _ Hgs).
Qed.

(** X11: after such options, [-h] or [--help] prints the help and ends
    the process with the status 0, whatever follows it, unless an argument
    that follows begins with [--=] (an ambiguous abbreviation, which is
    reported before any option acts). *)
Theorem help_exits (gs : list given) (h : string) (post : list string) (w : World) :
  Forall given_ok gs →
  h = "-h" ∨ h = "--help" →
  Forall (λ s, String.prefix "--=" s = false) post →
  parse_known_args (command_line gs ++ h :: post) = HelpExit
  ∧ run (command_line gs ++ h :: post) w = (0%Z, set_stdout (λ l, l ++ format_help) w).
Proof.
  intros Hgs Hh Hpost.
  assert (H : parse_known_args (command_line gs ++ h :: post) = HelpExit).
  { unfold parse_known_args. rewrite (pattern_given _ _ Hgs).
    destruct (pattern_total post Hpost) as [toks Htoks].
    destruct Hh as [-> | ->].
    - rewrite (pattern_cons_option _ "-h" (Some Help) None) by reflexivity.
      rewrite Htoks, (consume_given _ _ Hgs). reflexivity.
    - rewrite (pattern_cons_option _ "--help" (Some Help) None) by reflexivity.
      rewrite Htoks, (consume_given _ _ Hgs). reflexivity. }
  split; [exact H|]. now apply run_help.
Qed.

(** X12: the program takes no positional argument: a command line with
    an argument that does not begin with a dash and is not the value of an
    option is never accepted; the process ends with a usage error (status
    2), or with the help when a help option follows. *)
Theorem positional_rejected (gs : list given) (s : string) (post : list string)
    (w : World) :
  Forall given_ok gs →
  plain s →
  (∃ msg, parse_known_args (command_line gs ++ s :: post) = UsageError msg
          ∧ run (command_line gs ++ s :: post) w
            = (2%Z,
               set_stderr (λ l, l ++ format_usage ++ ["night_sky.py: error: " +:+ msg]) w))
  ∨ (parse_known_args (command_line gs ++ s :: post) = HelpExit
     ∧ run (command_line gs ++ s :: post) w
       = (0%Z, set_stdout (λ l, l ++ format_help) w)).
Proof.
  intros Hgs Hs.
  destruct (parse_known_args (command_line gs ++ s :: post)) as [ns|msg|] eqn:H.
  - exfalso. revert H. unfold parse_known_args.
    rewrite (pattern_given _ _ Hgs), (pattern_cons_arg _ _ Hs).
    destruct (arg_strings_pattern post) as [toks| |]; try discriminate.
    rewrite (consume_given _ _ Hgs). cbn [consume]. now apply consume_extras.
  - left. exists msg. split; [reflexivity|]. now apply run_usage_error.
  - right. split; [reflexivity|]. now apply run_help.
Qed.


(** X14: an abbreviation of an option, of three characters or more
    ([--out] for [--output], [--th] for [--theme]), is read as the option:
    before any [--], the command line is parsed as the one with the full
    option. *)
Theorem abbreviated_option (pre post : list string) (p o : string) (act : dest) :
  (o, act) ∈ option_string_actions →
  String.prefix p o = true →
  (3 ≤ String.length p)%nat →
  "--" ∉ pre →
  parse_known_args (pre ++ p :: post) = parse_known_args (pre ++ o :: post).
Proof.
  intros Ho Hp Hlen Hdash.
  destruct (parse_optional_abbreviation p o act Ho Hp Hlen) as [Hp2 Hpo].
  assert (Hlen' : (3 ≤ String.length o)%nat).
  { revert Hlen. unfold option_string_actions in Ho.
    repeat (apply elem_of_cons in Ho as [[= -> ->]|Ho]; [prefixes Hp; cbn; lia|]).
    now apply elem_of_nil in Ho. }
  assert (Hoo : String.prefix o o = true).
  { clear. induction o as [|c o IH]; [reflexivity|]. cbn [String.prefix].
    now destruct (ascii_dec c c). }
  destruct (parse_optional_abbreviation o o act Ho Hoo Hlen') as [Ho2 Hoo'].
  rewrite !(parse_app _ _ Hdash).
  destruct (arg_strings_pattern pre) as [tpre| |]; try reflexivity.
  rewrite (pattern_cons_option _ _ _ _ _ (proj2 (String.eqb_neq _ _) Hp2) Hpo).
  rewrite (pattern_cons_option _ _ _ _ _ (proj2 (String.eqb_neq _ _) Ho2) Hoo').
  destruct (arg_strings_pattern post) as [toks| |]; try reflexivity.
  now apply consume_congr.
Qed.

(** X15: [--option=value] is read as [--option value]: for an option
    that takes a value, a value that does not begin with a dash, and before
    any [--], the two command lines are parsed alike. *)
Theorem joined_value (pre post : list string) (o : string) (act : dest) (v : string) :
  (o, act) ∈ option_string_actions →
  takes_argument act = true →
  plain v →
  "--" ∉ pre →
  parse_known_args (pre ++ (o +:+ "=" +:+ v) :: post)
  = parse_known_args (pre ++ o :: v :: post).
Proof.
  intros Ho Hact Hv Hdash. rewrite !(parse_app _ _ Hdash).
  destruct (arg_strings_pattern pre) as [tpre| |]; try reflexivity.
  unfold option_string_actions in Ho.
  repeat (apply elem_of_cons in Ho as [[= -> ->]|Ho]; [try discriminate Hact|]);
    try (now apply elem_of_nil in Ho).
  all: erewrite !pattern_cons_option by reflexivity;
    rewrite (pattern_cons_arg _ _ Hv);
    (destruct (arg_strings_pattern post) as [toks| |]; try reflexivity);
    now apply consume_congr.
Qed.

End CommandLine.

(** ** More about whole runs *)

Lemma plot_sky_open_files stars theme labels output w :
  open_files (plot_sky stars theme labels output w).2 = open_files w.
Proof.
  destruct (theme_style_colours theme) as (style & bg & fg & Hstyle & Hbg & Hfg).
  rewrite (plot_sky_steps _ _ _ _ _ _ _ _ Hstyle Hbg Hfg).
  destruct (draw_chart style stars labels new_axes) as [ax|e]; [|reflexivity].
  now destruct (write_error w output).
Qed.

Lemma app_ne_self {A} (l k : list A) : k ≠ [] → l ++ k ≠ l.
Proof.
  intros Hk H. apply (f_equal length) in H. rewrite length_app in H.
  destruct k; [contradiction|]. cbn in H. lia.
Qed.

Section Process.
Variable float_of_str : string → option float.
Local Abbreviation read_stars := (read_stars float_of_str).
Local Abbreviation star_of_row := (star_of_row float_of_str).
Local Abbreviation star_from := (star_from float_of_str).
Local Abbreviation loadable := (loadable float_of_str).
Local Abbreviation run := (run float_of_str).



End Process.

(** ** The magnitude at which the clamp begins *)

Section Threshold.
Local Open Scope Z_scope.

Lemma pow2_pos n : 0 ≤ n → 0 < 2 ^ n.
Proof. intros. apply Z.pow_pos_nonneg; lia. Qed.

Lemma pow2_split a b : 0 ≤ a → 0 ≤ b → 2 ^ (a + b) = 2 ^ a * 2 ^ b.
Proof. intros. apply Z.pow_add_r; lia. Qed.

(** The comparison may be made at any exponent below the two. *)
Lemma val_le_at c m1 e1 m2 e2 :
  c ≤ e1 → c ≤ e2 →
  val_le m1 e1 m2 e2 ↔ m1 * 2 ^ (e1 - c) ≤ m2 * 2 ^ (e2 - c).
Proof.
  intros H1 H2. unfold val_le.
  set (μ := Z.min e1 e2). assert (Hμ : c ≤ μ ∧ μ ≤ e1 ∧ μ ≤ e2) by (unfold μ; lia).
  replace (e1 - c) with ((e1 - μ) + (μ - c)) by lia.
  replace (e2 - c) with ((e2 - μ) + (μ - c)) by lia.
  rewrite !pow2_split by lia. rewrite !Z.mul_assoc.
  pose proof (pow2_pos (μ - c) ltac:(lia)) as Hp.
  split; intros H.
  - apply Z.mul_le_mono_nonneg_r; [lia|exact H].
  - eapply Z.mul_le_mono_pos_r; [exact Hp|exact H].
Qed.

Lemma val_le_trans m1 e1 m2 e2 m3 e3 :
  val_le m1 e1 m2 e2 → val_le m2 e2 m3 e3 → val_le m1 e1 m3 e3.
Proof.
  set (c := Z.min e1 (Z.min e2 e3)).
  rewrite (val_le_at c m1 e1 m2 e2), (val_le_at c m2 e2 m3 e3), (val_le_at c m1 e1 m3 e3)
    by (unfold c; lia).
  lia.
Qed.

Lemma val_le_mono_r m1 e1 m2 m2' e2 :
  val_le m1 e1 m2 e2 → m2 ≤ m2' → val_le m1 e1 m2' e2.
Proof.
  unfold val_le. intros H Hle.
  pose proof (pow2_pos (e2 - Z.min e1 e2) ltac:(lia)).
  etransitivity; [exact H|]. apply Z.mul_le_mono_nonneg_r; lia.
Qed.

Lemma val_le_mono_l m1 m1' e1 m2 e2 :
  val_le m1 e1 m2 e2 → m1' ≤ m1 → val_le m1' e1 m2 e2.
Proof.
  unfold val_le. intros H Hle.
  pose proof (pow2_pos (e1 - Z.min e1 e2) ltac:(lia)).
  etransitivity; [|exact H]. apply Z.mul_le_mono_nonneg_r; lia.
Qed.

Lemma digits2_pos_upper p : Zpos p < 2 ^ Zpos (digits2_pos p).
Proof.
  induction p as [p IH|p IH|]; simpl digits2_pos.
  - rewrite Pos2Z.inj_succ, Z.pow_succ_r, (Pos2Z.inj_xI p) by lia. lia.
  - rewrite Pos2Z.inj_succ, Z.pow_succ_r, (Pos2Z.inj_xO p) by lia. lia.
  - simpl. lia.
Qed.

Lemma fexp_eq x : fexp Float.prec Float.emax x = Z.max (x - 53) (-1074).
Proof. reflexivity. Qed.

(** The shift of [shr_fexp]: none, or a division by a power of two that
    brings the exponent to the working exponent. *)
Lemma shr_fexp_cases m e l :
  0 ≤ m →
  (fexp Float.prec Float.emax (Zdigits2 m + e) ≤ e
   ∧ shr_fexp Float.prec Float.emax m e l = (shr_record_of_loc m l, e))
  ∨ ∃ k, 0 < k ∧ e + k = fexp Float.prec Float.emax (Zdigits2 m + e)
         ∧ (shr_fexp Float.prec Float.emax m e l).2 = e + k
         ∧ shr_m (shr_fexp Float.prec Float.emax m e l).1 = m / 2 ^ k.
Proof.
  intros Hm. unfold shr_fexp, shr.
  destruct (fexp Float.prec Float.emax (Zdigits2 m + e) - e) as [|p|p] eqn:Hn.
  - left. split; [lia|reflexivity].
  - right. exists (Zpos p). split; [lia|]. split; [lia|]. split; [reflexivity|].
    cbn [fst]. rewrite iter_pos_nat, shr_iter_m by (rewrite shr_record_of_loc_m; lia).
    now rewrite shr_record_of_loc_m, positive_nat_Z.
  - left. split; [lia|reflexivity].
Qed.

(** A shift to the working exponent keeps a number at or above a
    threshold that is itself a float. *)
Lemma shr_fexp_ge tm te m e l :
  0 < tm < 2 ^ 53 → -1074 ≤ te → 0 < m → val_le tm te m e →
  val_le tm te (shr_m (shr_fexp Float.prec Float.emax m e l).1)
    (shr_fexp Float.prec Float.emax m e l).2.
Proof.
  intros Htm Hte Hm H.
  destruct (shr_fexp_cases m e l ltac:(lia)) as [[_ ->]|(k & Hk & Hfexp & -> & ->)].
  - cbn [fst snd]. now rewrite shr_record_of_loc_m.
  - pose proof (pow2_pos k ltac:(lia)) as Hpk.
    destruct (Z_le_gt_dec (e + k) te) as [Hle|Hgt].
    + apply (val_le_at e) in H; [|lia ..]. apply (val_le_at (e + k)); [lia ..|].
      rewrite Z.sub_diag, Z.pow_0_r, Z.mul_1_r in *.
      apply Z.div_le_lower_bound; [lia|].
      replace (te - e) with ((te - (e + k)) + k) in H by lia.
      rewrite pow2_split in H by lia. lia.
    + apply (val_le_at te); [lia ..|]. rewrite Z.sub_diag, Z.pow_0_r, Z.mul_1_r.
      destruct m as [|q|q]; try lia. cbn [Zdigits2] in Hfexp. rewrite fexp_eq in Hfexp.
      assert (Hd : k = Zpos (digits2_pos q) - 53) by lia.
      pose proof (digits2_pos_lower q) as Hq.
      assert (H52 : 2 ^ 52 ≤ Zpos q / 2 ^ k).
      { apply Z.div_le_lower_bound; [lia|]. rewrite <- pow2_split by lia.
        replace (k + 52) with (Zpos (digits2_pos q) - 1) by lia. exact Hq. }
      assert (H2 : 2 ≤ 2 ^ (e + k - te)).
      { replace (e + k - te) with (1 + (e + k - te - 1)) by lia.
        rewrite pow2_split by lia. pose proof (pow2_pos (e + k - te - 1) ltac:(lia)).
        change (2 ^ 1) with 2. lia. }
      change (2 ^ 53) with 9007199254740992 in Htm.
      change (2 ^ 52) with 4503599627370496 in H52. nia.
Qed.

Lemma val_le_pos tm te m e : 0 < tm → val_le tm te m e → 0 < m.
Proof.
  unfold val_le. intros Htm H.
  pose proof (pow2_pos (te - Z.min te e) ltac:(lia)).
  pose proof (pow2_pos (e - Z.min te e) ltac:(lia)). nia.
Qed.

(** Rounding a number at or above a threshold that is a float gives a
    finite number at or above it, or overflows to infinity. *)
Lemma binary_round_aux_ge tm te sx m e l :
  0 < tm < 2 ^ 53 → -1074 ≤ te → 0 < m → val_le tm te m e →
  binary_round_aux Float.prec Float.emax sx m e l = S754_infinity sx ∨
  ∃ m' e', binary_round_aux Float.prec Float.emax sx m e l = S754_finite sx m' e'
           ∧ val_le tm te (Zpos m') e'.
Proof.
  intros Htm Hte Hm H. unfold binary_round_aux.
  pose proof (shr_fexp_ge tm te m e l Htm Hte Hm H) as H1.
  destruct (shr_fexp Float.prec Float.emax m e l) as [mrs1 e1]. cbn [fst snd] in H1.
  pose proof (val_le_mono_r _ _ _ _ _ H1
    (round_nearest_even_ge (shr_m mrs1) (loc_of_shr_record mrs1))) as H2.
  pose proof (shr_fexp_ge tm te _ _ loc_Exact Htm Hte
                (val_le_pos _ _ _ _ (proj1 Htm) H2) H2) as H3.
  destruct (shr_fexp Float.prec Float.emax
    (round_nearest_even (shr_m mrs1) (loc_of_shr_record mrs1)) e1 loc_Exact) as [mrs2 e2].
  cbn [fst snd] in H3. pose proof (val_le_pos _ _ _ _ (proj1 Htm) H3) as Hpos.
  destruct (shr_m mrs2) as [|q|q]; try lia.
  destruct (e2 <=? Float.emax - Float.prec); [right|left]; eauto.
Qed.

(** When nothing is lost in the shifts, the location stays exact. *)
Lemma shr_iter_exact n m :
  0 ≤ m → m mod 2 ^ Z.of_nat n = 0 →
  shr_r (Nat.iter n shr_1 {| shr_m := m; shr_r := false; shr_s := false |}) = false
  ∧ shr_s (Nat.iter n shr_1 {| shr_m := m; shr_r := false; shr_s := false |}) = false.
Proof.
  intros Hm. induction n as [|n IH]; intros Hmod; [now split|].
  rewrite Nat2Z.inj_succ, Z.pow_succ_r in Hmod by lia.
  pose proof (pow2_pos (Z.of_nat n) ltac:(lia)) as Hp.
  apply Z.div_exact in Hmod; [|lia].
  set (q := m / (2 * 2 ^ Z.of_nat n)) in Hmod.
  assert (Hdiv : m / 2 ^ Z.of_nat n = 2 * q).
  { rewrite Hmod. replace (2 * 2 ^ Z.of_nat n * q) with (2 * q * 2 ^ Z.of_nat n) by lia.
    apply Z.div_mul. lia. }
  assert (Hmod' : m mod 2 ^ Z.of_nat n = 0).
  { rewrite Hmod. replace (2 * 2 ^ Z.of_nat n * q) with (2 * q * 2 ^ Z.of_nat n) by lia.
    apply Z.mod_mul. lia. }
  destruct (IH Hmod') as [Hr Hs].
  pose proof (shr_iter_m n {| shr_m := m; shr_r := false; shr_s := false |} Hm) as Hmn.
  cbn [shr_m] in Hmn. rewrite Hdiv in Hmn. rewrite !Nat.iter_succ.
  destruct (Nat.iter n shr_1 {| shr_m := m; shr_r := false; shr_s := false |})
    as [mn rn sn].
  cbn [shr_m shr_r shr_s] in *. subst rn sn mn.
  destruct q as [|q|q]; cbn; now split.
Qed.

Lemma round_nearest_even_le m l : round_nearest_even m l ≤ m + 1.
Proof. destruct l as [|[]]; simpl; try lia. destruct (Z.even m); lia. Qed.

(** Cutting low bits does not increase a number. *)
Lemma val_le_div m e k tm te :
  0 ≤ m → 0 ≤ k → val_le m e tm te → val_le (m / 2 ^ k) (e + k) tm te.
Proof.
  intros Hm Hk H. pose proof (pow2_pos k Hk) as Hpk.
  apply (val_le_at (Z.min e te)) in H; [|lia ..].
  apply (val_le_at (Z.min e te)); [lia ..|].
  replace (e + k - Z.min e te) with (k + (e - Z.min e te)) by lia.
  rewrite pow2_split by lia.
  pose proof (Z.mul_div_le m (2 ^ k) Hpk) as Hdiv.
  pose proof (pow2_pos (e - Z.min e te) ltac:(lia)) as Hp.
  assert (Hq : 0 ≤ m / 2 ^ k) by (apply Z.div_pos; lia).
  etransitivity; [|exact H]. rewrite Z.mul_assoc.
  apply Z.mul_le_mono_nonneg_r; lia.
Qed.

(** The first shift and the rounding keep a number at or below a
    threshold that is itself a float. *)
Lemma round_first_le tm te m e :
  0 < tm < 2 ^ 53 → -1074 ≤ te → 0 < m → val_le m e tm te →
  0 ≤ round_nearest_even (shr_m (shr_fexp Float.prec Float.emax m e loc_Exact).1)
        (loc_of_shr_record (shr_fexp Float.prec Float.emax m e loc_Exact).1)
  ∧ val_le
      (round_nearest_even (shr_m (shr_fexp Float.prec Float.emax m e loc_Exact).1)
         (loc_of_shr_record (shr_fexp Float.prec Float.emax m e loc_Exact).1))
      (shr_fexp Float.prec Float.emax m e loc_Exact).2 tm te.
Proof.
  intros Htm Hte Hm H.
  destruct (shr_fexp_cases m e loc_Exact ltac:(lia)) as [[_ Heq]|(k & Hk & Hfexp & He & Hm1)].
  - rewrite Heq. cbn. split; [lia|exact H].
  - pose proof (pow2_pos k ltac:(lia)) as Hpk.
    assert (Hq : 0 ≤ m / 2 ^ k) by (apply Z.div_pos; lia).
    pose proof (val_le_div m e k tm te ltac:(lia) ltac:(lia) H) as Hdiv.
    split.
    { rewrite Hm1. pose proof (round_nearest_even_ge (m / 2 ^ k)
        (loc_of_shr_record (shr_fexp Float.prec Float.emax m e loc_Exact).1)). lia. }
    rewrite He. destruct (Z.eq_dec (m mod 2 ^ k) 0) as [Hmod|Hmod].
    + assert (Hloc : loc_of_shr_record (shr_fexp Float.prec Float.emax m e loc_Exact).1
                     = loc_Exact).
      { unfold shr_fexp, shr in *.
        destruct (fexp Float.prec Float.emax (Zdigits2 m + e) - e) as [|p|p] eqn:Hn;
          try reflexivity.
        cbn [fst snd] in *. assert (Hkp : k = Zpos p) by lia. subst k.
        rewrite iter_pos_nat. cbn [shr_record_of_loc].
        rewrite <- (positive_nat_Z p) in Hmod.
        destruct (shr_iter_exact (Pos.to_nat p) m ltac:(lia) Hmod) as [Hr Hs].
        destruct (Nat.iter _ shr_1 _) as [mn rn sn]. cbn in Hr, Hs. now subst. }
      rewrite Hloc, Hm1. exact Hdiv.
    + eapply val_le_mono_l; [|rewrite Hm1; apply round_nearest_even_le].
      pose proof (Z.div_mod m (2 ^ k) ltac:(lia)) as Hdm.
      pose proof (Z.mod_pos_bound m (2 ^ k) Hpk) as Hb.
      destruct (Z_le_gt_dec (e + k) te) as [Hle|Hgt].
      * apply (val_le_at e) in H; [|lia ..]. apply (val_le_at (e + k)); [lia ..|].
        rewrite Z.sub_diag, Z.pow_0_r, Z.mul_1_r in *.
        replace (te - e) with ((te - (e + k)) + k) in H by lia.
        rewrite pow2_split in H by lia.
        pose proof (pow2_pos (te - (e + k)) ltac:(lia)). nia.
      * exfalso. apply (val_le_at te) in Hdiv; [|lia ..].
        rewrite Z.sub_diag, Z.pow_0_r, Z.mul_1_r in Hdiv.
        destruct m as [|q|q]; try lia. cbn [Zdigits2] in Hfexp. rewrite fexp_eq in Hfexp.
        assert (Hd : k = Zpos (digits2_pos q) - 53) by lia.
        pose proof (digits2_pos_lower q) as Hlow.
        assert (H52 : 2 ^ 52 ≤ Zpos q / 2 ^ k).
        { apply Z.div_le_lower_bound; [lia|]. rewrite <- pow2_split by lia.
          replace (k + 52) with (Zpos (digits2_pos q) - 1) by lia. exact Hlow. }
        assert (H2 : 2 ≤ 2 ^ (e + k - te)).
        { replace (e + k - te) with (1 + (e + k - te - 1)) by lia.
          rewrite pow2_split by lia. pose proof (pow2_pos (e + k - te - 1) ltac:(lia)).
          change (2 ^ 1) with 2. lia. }
        change (2 ^ 53) with 9007199254740992 in Htm.
        change (2 ^ 52) with 4503599627370496 in H52. nia.
Qed.

(** A positive number at or below a float has a smaller exponent than the
    next power of two. *)
Lemma val_le_exponent tm te m e :
  0 < tm < 2 ^ 53 → 0 < m → val_le m e tm te → e < te + 53.
Proof.
  intros Htm Hm H. destruct (Z_lt_ge_dec e (te + 53)) as [|Hge]; [assumption|exfalso].
  apply (val_le_at te) in H; [|lia ..]. rewrite Z.sub_diag, Z.pow_0_r, Z.mul_1_r in H.
  assert (2 ^ 53 ≤ 2 ^ (e - te)) by (apply Z.pow_le_mono_r; lia). nia.
Qed.

(** Rounding a number at or below a threshold that is a float gives a
    finite number at or below it, or zero. *)
Lemma binary_round_aux_le tm te sx m e :
  0 < tm < 2 ^ 53 → -1074 ≤ te ≤ 900 → 0 < m → val_le m e tm te →
  binary_round_aux Float.prec Float.emax sx m e loc_Exact = S754_zero sx ∨
  ∃ m' e', binary_round_aux Float.prec Float.emax sx m e loc_Exact = S754_finite sx m' e'
           ∧ val_le (Zpos m') e' tm te.
Proof.
  intros Htm Hte Hm H. unfold binary_round_aux.
  pose proof (round_first_le tm te m e Htm (proj1 Hte) Hm H) as [H0 H1].
  destruct (shr_fexp Float.prec Float.emax m e loc_Exact) as [mrs1 e1]. cbn [fst snd] in *.
  set (m2 := round_nearest_even (shr_m mrs1) (loc_of_shr_record mrs1)) in *.
  assert (H3 : 0 ≤ shr_m (shr_fexp Float.prec Float.emax m2 e1 loc_Exact).1
               ∧ val_le (shr_m (shr_fexp Float.prec Float.emax m2 e1 loc_Exact).1)
                   (shr_fexp Float.prec Float.emax m2 e1 loc_Exact).2 tm te).
  { destruct (shr_fexp_cases m2 e1 loc_Exact H0) as [[_ ->]|(k & Hk & _ & -> & ->)].
    - split; [exact H0|exact H1].
    - split; [apply Z.div_pos; [lia|apply pow2_pos; lia]|].
      apply val_le_div; [lia ..|exact H1]. }
  destruct (shr_fexp Float.prec Float.emax m2 e1 loc_Exact) as [mrs2 e2].
  cbn [fst snd] in H3. destruct H3 as [Hpos H3].
  destruct (shr_m mrs2) as [|q|q] eqn:Hq; [now left| |lia].
  right. pose proof (val_le_exponent tm te (Zpos q) e2 Htm ltac:(lia) H3) as He2.
  assert (Hle : (e2 <=? Float.emax - Float.prec) = true).
  { apply Z.leb_le. unfold Float.emax, Float.prec. lia. }
  rewrite Hle. eauto.
Qed.

(** Rounding a positive number never gives a NaN, and keeps the sign. *)
Lemma binary_round_aux_sign sx m e l :
  0 ≤ m →
  binary_round_aux Float.prec Float.emax sx m e l = S754_zero sx
  ∨ binary_round_aux Float.prec Float.emax sx m e l = S754_infinity sx
  ∨ ∃ m' e', binary_round_aux Float.prec Float.emax sx m e l = S754_finite sx m' e'.
Proof.
  intros Hm. unfold binary_round_aux.
  assert (H1 : 0 ≤ shr_m (shr_fexp Float.prec Float.emax m e l).1).
  { destruct (shr_fexp_cases m e l Hm) as [[_ ->]|(k & Hk & _ & _ & ->)].
    - cbn [fst]. now rewrite shr_record_of_loc_m.
    - apply Z.div_pos; [lia|apply pow2_pos; lia]. }
  destruct (shr_fexp Float.prec Float.emax m e l) as [mrs1 e1]. cbn [fst] in H1.
  set (m2 := round_nearest_even (shr_m mrs1) (loc_of_shr_record mrs1)).
  assert (H2 : 0 ≤ m2).
  { pose proof (round_nearest_even_ge (shr_m mrs1) (loc_of_shr_record mrs1)).
    unfold m2. lia. }
  assert (H3 : 0 ≤ shr_m (shr_fexp Float.prec Float.emax m2 e1 loc_Exact).1).
  { destruct (shr_fexp_cases m2 e1 loc_Exact H2) as [[_ ->]|(k & Hk & _ & _ & ->)].
    - exact H2.
    - apply Z.div_pos; [lia|apply pow2_pos; lia]. }
  destruct (shr_fexp Float.prec Float.emax m2 e1 loc_Exact) as [mrs2 e2]. cbn [fst] in H3.
  destruct (shr_m mrs2) as [|q|q]; [now left| |lia].
  right. destruct (e2 <=? Float.emax - Float.prec); eauto.
Qed.

Lemma iter_xO m d : Zpos (Pos.iter xO m d) = Zpos m * 2 ^ Zpos d.
Proof.
  induction d as [|d IH] using Pos.peano_ind.
  - cbn [Pos.iter]. rewrite Pos2Z.inj_xO. change (2 ^ 1) with 2. lia.
  - rewrite Pos.iter_succ, Pos2Z.inj_xO, IH, Pos2Z.inj_succ, Z.pow_succ_r by lia. lia.
Qed.

(** Aligning to a smaller exponent multiplies the mantissa by a power of
    two. *)
Lemma shl_align_spec mx ex ex' :
  (shl_align mx ex ex').2 = Z.min ex ex'
  ∧ Zpos (shl_align mx ex ex').1 = Zpos mx * 2 ^ (ex - Z.min ex ex').
Proof.
  unfold shl_align. destruct (ex' - ex) as [|d|d] eqn:Hd; cbn [fst snd].
  - replace (Z.min ex ex') with ex by lia. rewrite Z.sub_diag. split; lia.
  - replace (Z.min ex ex') with ex by lia. rewrite Z.sub_diag. split; lia.
  - replace (Z.min ex ex') with ex' by lia. split; [reflexivity|].
    rewrite iter_xO. f_equal. f_equal. lia.
Qed.

Lemma val_le_align_r m1 e1 m e e' :
  e' ≤ e → val_le m1 e1 (m * 2 ^ (e - e')) e' ↔ val_le m1 e1 m e.
Proof.
  intros Hd. set (c := Z.min e1 e').
  rewrite (val_le_at c m1 e1 (m * 2 ^ (e - e')) e'), (val_le_at c m1 e1 m e)
    by (unfold c; lia).
  replace (e - c) with ((e - e') + (e' - c)) by lia.
  rewrite pow2_split by (unfold c; lia). now rewrite Z.mul_assoc.
Qed.

Lemma val_le_align_l m e e' m2 e2 :
  e' ≤ e → val_le (m * 2 ^ (e - e')) e' m2 e2 ↔ val_le m e m2 e2.
Proof.
  intros Hd. set (c := Z.min e2 e').
  rewrite (val_le_at c (m * 2 ^ (e - e')) e' m2 e2), (val_le_at c m e m2 e2)
    by (unfold c; lia).
  replace (e - c) with ((e - e') + (e' - c)) by lia.
  rewrite pow2_split by (unfold c; lia). now rewrite Z.mul_assoc.
Qed.

Lemma binary_round_ge tm te sx mx ex :
  0 < tm < 2 ^ 53 → -1074 ≤ te → val_le tm te (Zpos mx) ex →
  binary_round Float.prec Float.emax sx mx ex = S754_infinity sx ∨
  ∃ m' e', binary_round Float.prec Float.emax sx mx ex = S754_finite sx m' e'
           ∧ val_le tm te (Zpos m') e'.
Proof.
  intros Htm Hte H. unfold binary_round.
  destruct (shl_align_spec mx ex (fexp Float.prec Float.emax (Zpos (digits2_pos mx) + ex)))
    as [He Hm].
  destruct (shl_align mx ex _) as [mz ez]. cbn [fst snd] in He, Hm.
  rewrite <- He in Hm. apply binary_round_aux_ge; try assumption; [lia|].
  rewrite Hm. apply val_le_align_r; [lia|assumption].
Qed.

Lemma binary_round_le tm te sx mx ex :
  0 < tm < 2 ^ 53 → -1074 ≤ te ≤ 900 → val_le (Zpos mx) ex tm te →
  binary_round Float.prec Float.emax sx mx ex = S754_zero sx ∨
  ∃ m' e', binary_round Float.prec Float.emax sx mx ex = S754_finite sx m' e'
           ∧ val_le (Zpos m') e' tm te.
Proof.
  intros Htm Hte H. unfold binary_round.
  destruct (shl_align_spec mx ex (fexp Float.prec Float.emax (Zpos (digits2_pos mx) + ex)))
    as [He Hm].
  destruct (shl_align mx ex _) as [mz ez]. cbn [fst snd] in He, Hm.
  rewrite <- He in Hm. apply binary_round_aux_le; try assumption; [lia|].
  rewrite Hm. apply val_le_align_l; [lia|assumption].
Qed.

Lemma binary_round_sign sx mx ex :
  binary_round Float.prec Float.emax sx mx ex = S754_zero sx
  ∨ binary_round Float.prec Float.emax sx mx ex = S754_infinity sx
  ∨ ∃ m' e', binary_round Float.prec Float.emax sx mx ex = S754_finite sx m' e'.
Proof.
  unfold binary_round. destruct (shl_align mx ex _) as [mz ez].
  apply binary_round_aux_sign. lia.
Qed.

Lemma gt_int_above m e :
  val_le (2 ^ 49 + 1) (-49) (Zpos m) e → Float.gt_int (S754_finite false m e) 1 = true.
Proof.
  intros H. unfold Float.gt_int, Float.compare_int. cbn [cond_Zopp].
  change (2 ^ 49 + 1) with 562949953421313 in H.
  destruct (0 <=? e) eqn:Hs.
  - apply Z.leb_le in Hs. apply (val_le_at (-49)) in H; [|lia ..].
    rewrite Z.sub_diag, Z.pow_0_r, Z.mul_1_r in H.
    replace (e - -49) with (e + 49) in H by lia. rewrite pow2_split in H by lia.
    pose proof (pow2_pos e Hs). change (2 ^ 49) with 562949953421312 in H.
    destruct (Z.compare_spec (Zpos m * 2 ^ e) 1); [nia|nia|reflexivity].
  - apply Z.leb_gt in Hs. rewrite Z.mul_1_l.
    assert (Hgt : 2 ^ (- e) < Zpos m).
    { destruct (Z_le_gt_dec e (-49)) as [Hle|Hgt].
      - apply (val_le_at e) in H; [|lia ..].
        rewrite Z.sub_diag, Z.pow_0_r, Z.mul_1_r in H.
        replace (- e) with (49 + (-49 - e)) by lia. rewrite pow2_split by lia.
        pose proof (pow2_pos (-49 - e) ltac:(lia)).
        change (2 ^ 49) with 562949953421312. lia.
      - apply (val_le_at (-49)) in H; [|lia ..].
        rewrite Z.sub_diag, Z.pow_0_r, Z.mul_1_r in H.
        replace (e - -49) with (e + 49) in H by lia.
        assert (Hsplit : 2 ^ 49 = 2 ^ (- e) * 2 ^ (e + 49))
          by (rewrite <- pow2_split by lia; f_equal; lia).
        change (2 ^ 49) with 562949953421312 in Hsplit.
        pose proof (pow2_pos (- e) ltac:(lia)). pose proof (pow2_pos (e + 49) ltac:(lia)).
        nia. }
    destruct (Z.compare_spec (Zpos m) (2 ^ (- e))); [lia|lia|reflexivity].
Qed.

Lemma gt_int_below m e :
  val_le (Zpos m) e 1 0 → Float.gt_int (S754_finite false m e) 1 = false.
Proof.
  intros H. unfold Float.gt_int, Float.compare_int. cbn [cond_Zopp].
  destruct (0 <=? e) eqn:Hs.
  - apply Z.leb_le in Hs. apply (val_le_at 0) in H; [|lia ..].
    rewrite Z.sub_diag, Z.pow_0_r, Z.mul_1_r, Z.sub_0_r in H.
    destruct (Z.compare_spec (Zpos m * 2 ^ e) 1); [reflexivity|reflexivity|lia].
  - apply Z.leb_gt in Hs. apply (val_le_at e) in H; [|lia ..].
    rewrite Z.sub_diag, Z.pow_0_r, Z.mul_1_r, Z.sub_0_l in H.
    destruct (Z.compare_spec (Zpos m) (1 * 2 ^ (- e))); [reflexivity|reflexivity|lia].
Qed.

Lemma gt_int_negative m e : Float.gt_int (S754_finite true m e) 1 = false.
Proof.
  unfold Float.gt_int, Float.compare_int. cbn [cond_Zopp].
  destruct (0 <=? e) eqn:Hs.
  - apply Z.leb_le in Hs. pose proof (pow2_pos e Hs).
    destruct (Z.compare_spec (- Zpos m * 2 ^ e) 1); [reflexivity|reflexivity|nia].
  - apply Z.leb_gt in Hs. pose proof (pow2_pos (- e) ltac:(lia)).
    destruct (Z.compare_spec (- Zpos m) (1 * 2 ^ (- e))); [reflexivity|reflexivity|lia].
Qed.

(** [10 - mag * 2] for a finite [mag]: one rounding for the product, one
    for the difference. *)
Lemma brightness_finite s m e :
  brightness (S754_finite s m e)
  = SFsub Float.prec Float.emax (S754_finite false 5629499534213120 (-49))
      (binary_round_aux Float.prec Float.emax s (Zpos (m * 4503599627370496)) (e + -51)
         loc_Exact).
Proof.
  unfold brightness, Float.sub, Float.mul.
  replace (Float.of_int 10) with (S754_finite false 5629499534213120 (-49))
    by (vm_compute; reflexivity).
  replace (Float.of_int 2) with (S754_finite false 4503599627370496 (-51))
    by (vm_compute; reflexivity).
  cbn [SFmul]. now rewrite xorb_false_r.
Qed.

Lemma sub_10_finite sy my ey :
  SFsub Float.prec Float.emax (S754_finite false 5629499534213120 (-49))
    (S754_finite sy my ey)
  = binary_normalize Float.prec Float.emax
      (5629499534213120 * 2 ^ (-49 - Z.min (-49) ey)
       - cond_Zopp sy (Zpos my * 2 ^ (ey - Z.min (-49) ey)))
      (Z.min (-49) ey) false.
Proof.
  cbn [SFsub cond_Zopp].
  destruct (shl_align_spec 5629499534213120 (-49) (Z.min (-49) ey)) as [_ ->].
  destruct (shl_align_spec my ey (Z.min (-49) ey)) as [_ ->].
  replace (Z.min (-49) (Z.min (-49) ey)) with (Z.min (-49) ey) by lia.
  replace (Z.min ey (Z.min (-49) ey)) with (Z.min (-49) ey) by lia.
  reflexivity.
Qed.

Ltac float_bound := change (2 ^ 53) with 9007199254740992; lia.

(** From the magnitude [4.5] on, [10 - mag * 2] is not greater than 1. *)
Lemma brightness_faint m e :
  val_le 5066549580791808 (-50) (Zpos m) e →
  Float.gt_int (brightness (S754_finite false m e)) 1 = false.
Proof.
  intros H. rewrite brightness_finite.
  assert (H9 : val_le 9 0 (Zpos (m * 4503599627370496)) (e + -51)).
  { set (c := Z.min (-51) (e - 51)).
    apply (val_le_at c) in H; [|unfold c; lia ..]. apply (val_le_at c); [unfold c; lia ..|].
    rewrite Pos2Z.inj_mul.
    replace (0 - c) with (50 + (-50 - c)) by lia.
    replace (e - c) with (51 + (e + -51 - c)) in H by lia.
    rewrite pow2_split in H by (unfold c; lia). rewrite pow2_split by (unfold c; lia).
    change (2 ^ 50) with 1125899906842624. change (2 ^ 51) with 2251799813685248 in H.
    lia. }
  destruct (binary_round_aux_ge 9 0 false (Zpos (m * 4503599627370496)) (e + -51)
              loc_Exact ltac:(float_bound) ltac:(lia)
              ltac:(lia) H9) as [->|(my & ey & -> & Hy)]; [reflexivity|].
  rewrite sub_10_finite. cbn [cond_Zopp]. set (ez := Z.min (-49) ey) in *.
  apply (val_le_at ez) in Hy; [|unfold ez; lia ..].
  replace (0 - ez) with (49 + (-49 - ez)) in Hy by lia.
  rewrite pow2_split in Hy by (unfold ez; lia).
  change (2 ^ 49) with 562949953421312 in Hy.
  pose proof (pow2_pos (-49 - ez) ltac:(unfold ez; lia)) as HX.
  destruct (5629499534213120 * 2 ^ (-49 - ez) - Zpos my * 2 ^ (ey - ez)) as [|p|p] eqn:Hd;
    cbn [binary_normalize].
  - reflexivity.
  - assert (Hp : val_le (Zpos p) ez 1 0).
    { apply (val_le_at ez); [unfold ez; lia ..|].
      rewrite Z.sub_diag, Z.pow_0_r, Z.mul_1_r, Z.mul_1_l.
      replace (0 - ez) with (49 + (-49 - ez)) by lia.
      rewrite pow2_split by (unfold ez; lia). change (2 ^ 49) with 562949953421312. lia. }
    destruct (binary_round_le 1 0 false p ez ltac:(float_bound) ltac:(lia) Hp)
      as [->|(m' & e' & -> & H')]; [reflexivity|now apply gt_int_below].
  - destruct (binary_round_sign true p ez) as [->|[->|(m' & e' & ->)]];
      [reflexivity|reflexivity|apply gt_int_negative].
Qed.

(** A difference that is a float above 1 is greater than 1. *)
Lemma sub_10_above sy my ey :
  562949953421313 * 2 ^ (-49 - Z.min (-49) ey)
  ≤ 5629499534213120 * 2 ^ (-49 - Z.min (-49) ey)
    - cond_Zopp sy (Zpos my * 2 ^ (ey - Z.min (-49) ey)) →
  Float.gt_int
    (SFsub Float.prec Float.emax (S754_finite false 5629499534213120 (-49))
       (S754_finite sy my ey)) 1 = true.
Proof.
  rewrite sub_10_finite. set (ez := Z.min (-49) ey).
  pose proof (pow2_pos (-49 - ez) ltac:(unfold ez; lia)) as HX. intros H.
  destruct (5629499534213120 * 2 ^ (-49 - ez) - cond_Zopp sy (Zpos my * 2 ^ (ey - ez)))
    as [|p|p] eqn:Hd; try lia.
  cbn [binary_normalize].
  assert (Hp : val_le (2 ^ 49 + 1) (-49) (Zpos p) ez).
  { apply (val_le_at ez); [unfold ez; lia ..|].
    rewrite Z.sub_diag, Z.pow_0_r, Z.mul_1_r. change (2 ^ 49 + 1) with 562949953421313.
    exact H. }
  destruct (binary_round_ge (2 ^ 49 + 1) (-49) false p ez
              ltac:(change (2 ^ 49 + 1) with 562949953421313; float_bound) ltac:(lia) Hp)
    as [->|(m' & e' & -> & H')]; [reflexivity|now apply gt_int_above].
Qed.

(** Below the magnitude [4.5], [10 - mag * 2] is greater than 1. *)
Lemma brightness_bright m e :
  val_le (Zpos m) e 5066549580791807 (-50) →
  Float.gt_int (brightness (S754_finite false m e)) 1 = true.
Proof.
  intros H. rewrite brightness_finite.
  assert (H9 : val_le (Zpos (m * 4503599627370496)) (e + -51) 5066549580791807 (-49)).
  { set (c := Z.min (-51) (e - 51)).
    apply (val_le_at c) in H; [|unfold c; lia ..]. apply (val_le_at c); [unfold c; lia ..|].
    rewrite Pos2Z.inj_mul.
    replace (-49 - c) with (1 + (-50 - c)) by lia.
    replace (e - c) with (51 + (e + -51 - c)) in H by lia.
    rewrite pow2_split in H by (unfold c; lia). rewrite pow2_split by (unfold c; lia).
    change (2 ^ 1) with 2. change (2 ^ 51) with 2251799813685248 in H.
    lia. }
  destruct (binary_round_aux_le 5066549580791807 (-49) false
              (Zpos (m * 4503599627370496)) (e + -51) ltac:(float_bound)
              ltac:(lia) ltac:(lia) H9) as [->|(my & ey & -> & Hy)];
    [vm_compute; reflexivity|].
  apply sub_10_above. cbn [cond_Zopp]. set (ez := Z.min (-49) ey) in *.
  apply (val_le_at ez) in Hy; [|unfold ez; lia ..].
  pose proof (pow2_pos (-49 - ez) ltac:(unfold ez; lia)) as HX. lia.
Qed.

(** For a negative magnitude, [10 - mag * 2] is greater than 1. *)
Lemma brightness_negative m e :
  Float.gt_int (brightness (S754_finite true m e)) 1 = true.
Proof.
  rewrite brightness_finite.
  destruct (binary_round_aux_sign true (Zpos (m * 4503599627370496)) (e + -51) loc_Exact
              ltac:(lia)) as [->|[->|(my & ey & ->)]];
    [vm_compute; reflexivity|reflexivity|].
  apply sub_10_above. cbn [cond_Zopp].
  pose proof (pow2_pos (-49 - Z.min (-49) ey) ltac:(lia)).
  pose proof (pow2_pos (ey - Z.min (-49) ey) ltac:(lia)). nia.
Qed.

Lemma canonical_bounds m e :
  canonical_mantissa Float.prec Float.emax m e = true →
  Zpos (digits2_pos m) ≤ 53 ∧ (-1074 < e → Zpos (digits2_pos m) = 53).
Proof. unfold canonical_mantissa. rewrite fexp_eq. intros H%Z.eqb_eq. lia. Qed.

Lemma below_4_5_small m e :
  Zpos (digits2_pos m) ≤ 53 → e < -50 → val_le (Zpos m) e 5066549580791807 (-50).
Proof.
  intros Hd Hlt. pose proof (digits2_pos_upper m) as Hup.
  apply (val_le_at e); [lia ..|].
  rewrite Z.sub_diag, Z.pow_0_r, Z.mul_1_r.
  assert (H53 : 2 ^ Zpos (digits2_pos m) ≤ 2 ^ 53) by (apply Z.pow_le_mono_r; lia).
  assert (H2 : 2 ^ 1 ≤ 2 ^ (-50 - e)) by (apply Z.pow_le_mono_r; lia).
  change (2 ^ 53) with 9007199254740992 in H53. change (2 ^ 1) with 2 in H2.
  apply Z.le_trans with (5066549580791807 * 2); [lia|].
  apply Z.mul_le_mono_nonneg_l; [now vm_compute|exact H2].
Qed.

Lemma above_4_5_large m e :
  Zpos (digits2_pos m) = 53 → -50 < e → val_le 5066549580791808 (-50) (Zpos m) e.
Proof.
  intros Hd Hgt. pose proof (digits2_pos_lower m) as Hlow.
  rewrite Hd in Hlow. change (2 ^ (53 - 1)) with 4503599627370496 in Hlow.
  apply (val_le_at (-50)); [lia ..|].
  rewrite Z.sub_diag, Z.pow_0_r, Z.mul_1_r.
  assert (H2 : 2 ^ 1 ≤ 2 ^ (e - -50)) by (apply Z.pow_le_mono_r; lia).
  change (2 ^ 1) with 2 in H2.
  apply Z.le_trans with (4503599627370496 * 2); [now vm_compute|].
  apply Z.mul_le_mono_nonneg; [now vm_compute|exact Hlow|now vm_compute|exact H2].
Qed.

Lemma val_le_same_exponent m1 m2 e : m1 ≤ m2 → val_le m1 e m2 e.
Proof.
  intros H. apply (val_le_at e); [lia ..|].
  now rewrite Z.sub_diag, Z.pow_0_r, !Z.mul_1_r.
Qed.

(** The comparison of two positive finite floats: by the exponents, then
    by the mantissas. *)
Lemma SFltb_finite m e n en :
  SFltb (S754_finite false m e) (S754_finite false n en)
  = if e <? en then true else if en <? e then false else Zpos m <? Zpos n.
Proof.
  unfold SFltb. cbn [SFcompare]. unfold Z.ltb at 3. cbn [Z.compare]. unfold Pos.compare.
  destruct (Z.ltb_spec e en) as [Hlt|Hge].
  - apply Z.compare_lt_iff in Hlt. now rewrite Hlt.
  - destruct (Z.ltb_spec en e) as [Hgt|Hle].
    + apply Z.compare_gt_iff in Hgt. now rewrite Hgt.
    + replace (e ?= en) with Eq by (symmetry; apply Z.compare_eq_iff; lia).
      now destruct (Pos.compare_cont Eq m n).
Qed.

(** On valid floats, the comparison with [4.5] is the comparison of the
    numbers. *)
Lemma compare_4_5 m e :
  valid_binary Float.prec Float.emax (S754_finite false m e) = true →
  if SFltb (S754_finite false m e) f_4_5
  then val_le (Zpos m) e 5066549580791807 (-50)
  else val_le 5066549580791808 (-50) (Zpos m) e.
Proof.
  cbn [valid_binary]. unfold bounded. intros [Hc _]%andb_true_iff.
  apply canonical_bounds in Hc as (Hd & Hn).
  unfold f_4_5. rewrite SFltb_finite.
  destruct (Z.ltb_spec e (-50)) as [Hlt|Hge]; [now apply below_4_5_small|].
  destruct (Z.ltb_spec (-50) e) as [Hgt|Hle]; [apply above_4_5_large; [apply Hn|]; lia|].
  assert (He : e = -50) by lia. subst e.
  destruct (Z.ltb_spec (Zpos m) 5066549580791808) as [Hm|Hm];
    apply val_le_same_exponent; lia.
Qed.

(** The clamp is taken exactly when [mag < 4.5] does not hold. *)
Lemma gt_brightness (mag : float) :
  valid_binary Float.prec Float.emax mag = true →
  Float.gt_int (brightness mag) 1 = SFltb mag f_4_5.
Proof.
  intros Hvalid. destruct mag as [s|s| |s m e].
  - destruct s; vm_compute; reflexivity.
  - destruct s; vm_compute; reflexivity.
  - vm_compute. reflexivity.
  - destruct s.
    + rewrite brightness_negative. reflexivity.
    + pose proof (compare_4_5 m e Hvalid) as H.
      destruct (SFltb (S754_finite false m e) f_4_5).
      * now apply brightness_bright.
      * now apply brightness_faint.
Qed.

End Threshold.

(** X18: for every valid double, the marker size is decided by the
    comparison of the magnitude with 4.5: when [mag < 4.5] holds the size is
    the float square of [10 - mag * 2] (or no size, when the square is out
    of range); in every other case (a magnitude of 4.5 or more, or a NaN)
    it is the integer 1. *)
Theorem marker_size_threshold (mag : float) :
  valid_binary Float.prec Float.emax mag = true →
  marker_size mag
  = if SFltb mag f_4_5 then PFloat <$> Float.pow2 (brightness mag) else Ok (PInt 1).
Proof.
  intros Hvalid. unfold marker_size, max_1. rewrite (gt_brightness mag Hvalid).
  now destruct (SFltb mag f_4_5).
Qed.

(** ** More concrete runs *)


(** X3 at a header followed by two blank lines. *)
Lemma read_stars_no_rows_witness :
  read_stars float_of_int_str "data/stars.csv" (csv_world [header; []; []])
  = (Ok [], opened "data/stars.csv" (csv_world [header; []; []])).
Proof.
  apply (read_stars_no_rows float_of_int_str "data/stars.csv"
           (csv_world [header; []; []]) [header; []; []]).
  - vm_compute. reflexivity.
  - vm_compute. reflexivity.
Defined.

(** X4 at a catalogue whose columns are [mag], [name], [dec_deg], [ra_deg]. *)
Lemma read_stars_by_position_witness :
  read_stars float_of_int_str "data/stars.csv" (csv_world [header_mixed; vega_mixed])
  = (Ok [vega_star], opened "data/stars.csv" (csv_world [header_mixed; vega_mixed])).
Proof.
  apply (read_stars_by_position float_of_int_str (csv_world [header_mixed; vega_mixed])
           "data/stars.csv" header_mixed [vega_mixed] 1 3 2 0 [vega_star]).
  - vm_compute. reflexivity.
  - unfold header_mixed. repeat constructor; intros H; elem_cases H.
  - reflexivity.
  - reflexivity.
  - reflexivity.
  - reflexivity.
  - replace (data_rows [vega_mixed]) with [vega_mixed] by (vm_compute; reflexivity).
    repeat constructor.
Defined.

(** X5 at a catalogue of two stars. *)
Lemma read_stars_all_rows_witness :
  ∃ stars,
    (read_stars float_of_int_str "data/stars.csv" (csv_world [header; vega; sirius])).1
    = Ok stars
    ∧ length stars = 2%nat.
Proof.
  destruct (read_stars float_of_int_str "data/stars.csv" (csv_world [header; vega; sirius]))
    as [[stars|e] w'] eqn:H.
  - exists stars. split; [reflexivity|].
    refine (proj1 (read_stars_all_rows float_of_int_str
                     (csv_world [header; vega; sirius]) w' "data/stars.csv"
                     header [vega; sirius] stars _ H)).
    vm_compute. reflexivity.
  - exfalso. vm_compute in H. discriminate H.
Defined.



(** X8 at a catalogue with a star of magnitude [-1e200]. *)
Lemma plot_sky_overflow_witness :
  ∃ w', plot_sky [vega_star; far_star] "dark" false "night_sky.png"
          (csv_world [header; vega])
        = (Raise (OverflowError "(34, 'Numerical result out of range')"), w')
        ∧ images w' = images (csv_world [header; vega]).
Proof.
  destruct (plot_sky_overflow [vega_star; far_star] "dark" false "night_sky.png"
              (csv_world [header; vega]) far_star
              (OverflowError "(34, 'Numerical result out of range')"))
    as (w' & Hplot & Himages & _).
  - right. now left.
  - vm_compute. reflexivity.
  - exists w'. split; [exact Hplot|exact Himages].
Defined.


Lemma light_given_ok : given_ok (GivenTheme "light").
Proof. split; [reflexivity|]. rewrite THEMES_light. eauto. Defined.

(** X10 at a command line that gives [--output] twice. *)
Lemma parse_given_witness :
  parse_known_args ["--theme"; "light"; "--output"; "a.png"; "--show-labels";
                    "--output"; "b.png"]
  = Parsed (mkNamespace "data/stars.csv" "light" true "b.png").
Proof.
  apply (parse_given [GivenTheme "light"; GivenOutput "a.png"; GivenShowLabels;
                      GivenOutput "b.png"]).
  constructor; [exact light_given_ok|]. repeat constructor.
Defined.

(** X11 at [--show-labels --help --theme sepia]. *)
Lemma help_exits_witness :
  parse_known_args ["--show-labels"; "--help"; "--theme"; "sepia"] = HelpExit.
Proof.
  refine (proj1 (help_exits float_of_int_str [GivenShowLabels] "--help"
                   ["--theme"; "sepia"] (csv_world [header]) _ _ _)).
  - repeat constructor.
  - now right.
  - repeat constructor.
Defined.

(** X12 at the command line [stars.csv]. *)
Lemma positional_rejected_witness :
  (∃ msg, parse_known_args ["stars.csv"] = UsageError msg)
  ∨ parse_known_args ["stars.csv"] = HelpExit.
Proof.
  destruct (positional_rejected float_of_int_str [] "stars.csv" [] (csv_world [header]))
    as [(msg & H & _)|[H _]].
  - constructor.
  - reflexivity.
  - left. exists msg. exact H.
  - right. exact H.
Defined.


(** X14 at [--out a.png]. *)
Lemma abbreviated_option_witness :
  parse_known_args ["--out"; "a.png"] = parse_known_args ["--output"; "a.png"].
Proof.
  apply (abbreviated_option [] ["a.png"] "--out" "--output" Output).
  - unfold option_string_actions. rewrite !elem_of_cons. auto 10.
  - reflexivity.
  - vm_compute. lia.
  - apply not_elem_of_nil.
Defined.

(** X15 at [--theme=light]. *)
Lemma joined_value_witness :
  parse_known_args ["--theme=light"] = parse_known_args ["--theme"; "light"].
Proof.
  apply (joined_value [] [] "--theme" Theme "light").
  - unfold option_string_actions. rewrite !elem_of_cons. auto 10.
  - reflexivity.
  - reflexivity.
  - apply not_elem_of_nil.
Defined.


(** X18 at the magnitudes 5 and 4. *)
Lemma marker_size_threshold_witness :
  marker_size (Float.of_int 5) = Ok (PInt 1)
  ∧ marker_size (Float.of_int 4) = Ok (PFloat (Float.of_int 4)).
Proof.
  split.
  - rewrite (marker_size_threshold (Float.of_int 5)) by (vm_compute; reflexivity).
    vm_compute. reflexivity.
  - rewrite (marker_size_threshold (Float.of_int 4)) by (vm_compute; reflexivity).
    vm_compute. reflexivity.
Defined.
